(** * zeekmon: the report store and the reporting loop (cmd/report.go)

    A shallow embedding of [cmd/report.go]: the [IntervalReport] record, its
    text exposition [String], the [Summaries] store with its NaN-safe
    serialization paths, and the [startIntervalReport] loop.

    Go values are modelled as follows.
    - [float64] is an IEEE 754 binary64 value, [spec_float] with precision 53
      and maximal exponent 1024, with the operations of [SpecFloat].
    - [*IntervalReport] is a [pointer] into an explicit heap; a nil
      dereference panics, which is the [None] of the [Go] monad.
    - [map[string]*IntervalReport] is a [gmap string pointer].
    - Each method of [Summaries] holds [s.mtx] for its whole body; here a
      method body is one atomic step of a sequential execution, so the lock
      itself is not represented.
    - A document produced by [json.Marshal] is kept as a [json] tree and not
      rendered to bytes. *)

From Stdlib Require Import ZArith Lia Floats.SpecFloat DecimalString.
From stdpp Require Import gmap strings list sorting.

Open Scope Z_scope.

(** ** float64 *)

Module Float64.

Definition prec : Z := 53.
Definition emax : Z := 1024.

Definition float64 : Type := spec_float.

Definition add : float64 -> float64 -> float64 := SFadd prec emax.
Definition div : float64 -> float64 -> float64 := SFdiv prec emax.

(** [float64(z)] for an integer [z], rounded to nearest even. *)
Definition ofZ (z : Z) : float64 := binary_normalize prec emax z 0 false.

Definition zero : float64 := S754_zero false.
Definition NaN : float64 := S754_nan.
Definition pInf : float64 := S754_infinity false.
Definition nInf : float64 := S754_infinity true.

(** The literal [-1]. *)
Definition minus_one : float64 := S754_finite true 4503599627370496 (-52).

(** The literal [1e9]. *)
Definition e9 : float64 := S754_finite false 8388608000000000 (-23).

(** math.IsNaN: [return f != f]. *)
Definition IsNaN (f : float64) : bool := negb (SFeqb f f).

(** math.IsInf(f, 0): [f > MaxFloat64 || f < -MaxFloat64]. *)
Definition IsInf (f : float64) : bool :=
  SFltb (SFmax_float prec emax) f || SFltb f (SFopp (SFmax_float prec emax)).

(** [int(f)]: the fraction is discarded (truncation towards zero).  A value
    that does not fit is implementation-defined in Go; amd64 gives the
    smallest int64.  [Seconds] below never produces such a value. *)
Definition toInt (f : float64) : Z :=
  match f with
  | S754_zero _ => 0
  | S754_finite s m e =>
      cond_Zopp s (match e with
                   | Zneg p => Z.shiftr (Zpos m) (Zpos p)
                   | _ => Z.shiftl (Zpos m) e
                   end)
  | _ => -9223372036854775808
  end.

End Float64.
Export Float64.

(** ** time.Time and time.Duration *)

(** A [time.Time] is observed by this program in two ways only: [Unix()] in
    [String], and [MarshalJSON()] inside [json.Marshal], which gives the
    RFC 3339 text or fails when the year is outside 0..9999.  A time is
    modelled by these two observations. *)
Record Time : Type := mkTime {
  Unix : Z;
  MarshalJSON : option string
}.

(** [time.Duration] is an int64 count of nanoseconds. *)
Definition Duration : Type := Z.

Definition Second : Duration := 1000000000.

(** Duration.Seconds:
      sec := d / Second; nsec := d % Second
      return float64(sec) + float64(nsec)/1e9
    Go's integer division truncates towards zero. *)
Definition Seconds (d : Duration) : float64 :=
  let sec := Z.quot d Second in
  let nsec := Z.rem d Second in
  add (ofZ sec) (div (ofZ nsec) e9).

(** ** IntervalReport *)

Record IntervalReport : Type := mkIntervalReport {
  PID : Z;
  Role : string;
  InitTimestamp : Time;
  Timestamp : Time;
  Age : Duration;
  WindowRate : float64;
  StandardDev : float64;
  LifetimeRate : float64;
  CurrentRate : float64;
  TimesRestated : Z;
  VirtMemoryBytes : Z;
  RSSBytes : Z;
  RateHistogram : option (gmap string Z)   (* [None] is the nil map *)
}.

Definition set_CurrentRate (v : float64) (r : IntervalReport) : IntervalReport :=
  mkIntervalReport (PID r) (Role r) (InitTimestamp r) (Timestamp r) (Age r)
    (WindowRate r) (StandardDev r) (LifetimeRate r) v
    (TimesRestated r) (VirtMemoryBytes r) (RSSBytes r) (RateHistogram r).

Definition set_LifetimeRate (v : float64) (r : IntervalReport) : IntervalReport :=
  mkIntervalReport (PID r) (Role r) (InitTimestamp r) (Timestamp r) (Age r)
    (WindowRate r) (StandardDev r) v (CurrentRate r)
    (TimesRestated r) (VirtMemoryBytes r) (RSSBytes r) (RateHistogram r).

Definition set_StandardDev (v : float64) (r : IntervalReport) : IntervalReport :=
  mkIntervalReport (PID r) (Role r) (InitTimestamp r) (Timestamp r) (Age r)
    (WindowRate r) v (LifetimeRate r) (CurrentRate r)
    (TimesRestated r) (VirtMemoryBytes r) (RSSBytes r) (RateHistogram r).

Definition set_WindowRate (v : float64) (r : IntervalReport) : IntervalReport :=
  mkIntervalReport (PID r) (Role r) (InitTimestamp r) (Timestamp r) (Age r)
    v (StandardDev r) (LifetimeRate r) (CurrentRate r)
    (TimesRestated r) (VirtMemoryBytes r) (RSSBytes r) (RateHistogram r).

(** ** fmt.Sprintf and IntervalReport.String *)

(** The double-quote character of the format strings. *)
Definition dquote : string := String (Ascii.ascii_of_nat 34) EmptyString.

(** The newline character. *)
Definition nl : string := String (Ascii.ascii_of_nat 10) EmptyString.

(** The verb [%d] on an integer. *)
Definition fmt_d (z : Z) : string := NilZero.string_of_int (Z.to_int z).

(** One [fmt.Sprintf] call of [String]: the metric name, the role between
    double quotes inside braces, a space and the value under [%d]. *)
Definition metric_line (name role : string) (v : Z) : string :=
  (name ++ "{role=" ++ dquote ++ role ++ dquote ++ "} " ++ fmt_d v)%string.

(** IntervalReport.String (report.go, lines 38-47). *)
Definition IntervalReport_String (i : IntervalReport) : string :=
  let role := Role i in
  let pid := metric_line "bro_pid" role (PID i) in
  let first_seen := metric_line "bro_process_start_seconds" role (Unix (Timestamp i)) in
  let age := metric_line "bro_process_age_seconds" role (toInt (Seconds (Age i))) in
  let vmem := metric_line "bro_virtual_memory_bytes" role (VirtMemoryBytes i) in
  (pid ++ nl ++ first_seen ++ nl ++ age ++ nl ++ vmem ++ nl)%string.

(** ** The heap, the store and the process state *)

Definition loc : Type := positive.

(** A [*IntervalReport]. *)
Inductive pointer : Type :=
  | Nil
  | Addr (l : loc).

(** The error values of this file and of [encoding/json]. *)
Inductive error : Type :=
  | errNoInfoForRole
  | errZeroSummaries                      (* zero summaries currently available *)
  | UnsupportedValueError (f : float64)   (* json: unsupported value *)
  | MarshalerError.                       (* Time.MarshalJSON failed *)

Inductive result (A : Type) : Type :=
  | Ok (a : A)
  | Err (e : error).
Arguments Ok {A} a.
Arguments Err {A} e.

(** A JSON document. *)
#[local] Set Warnings "-register-all".
Inductive json : Type :=
  | JNull
  | JNumber (z : Z)
  | JFloat (f : float64)
  | JString (s : string)
  | JArray (l : list json)
  | JObject (fields : list (string * json)).

(** What is written to standard output. *)
Inductive output : Type :=
  | Text (s : string)        (* fmt.Printf *)
  | Document (data : json).  (* fmt.Fprintln(os.Stdout, string(data)) *)

Record World : Type := mkWorld {
  heap : gmap loc IntervalReport;   (* the reports allocated so far *)
  store : gmap string pointer;      (* metricsReport.m *)
  stdout : list output;
  logged : list error               (* log.Printf of a failed report *)
}.

(** Computations of the program: state passing over [World]; [None] is a
    panic (nil dereference, index out of range). *)
Definition Go (A : Type) : Type := World -> option (A * World).

Definition ret {A} (a : A) : Go A := fun w => Some (a, w).

Definition bind {A B} (c : Go A) (k : A -> Go B) : Go B :=
  fun w => match c w with
           | Some (a, w') => k a w'
           | None => None
           end.

Definition panic {A} : Go A := fun _ => None.

Notation "x <~ c ;; k" := (bind c (fun x => k))
  (at level 100, c at next level, right associativity).
Notation "c ;;; k" := (bind c (fun _ => k))
  (at level 100, right associativity).

(** [*p] *)
Definition load (p : pointer) : Go IntervalReport :=
  fun w => match p with
           | Nil => None
           | Addr l => match heap w !! l with
                       | Some r => Some (r, w)
                       | None => None
                       end
           end.

(** [&IntervalReport{...}]: a fresh cell. *)
Definition new (r : IntervalReport) : Go pointer :=
  fun w => let l := fresh (dom (heap w)) in
           Some (Addr l, mkWorld (<[l := r]> (heap w)) (store w) (stdout w) (logged w)).

(** [p.field = v] *)
Definition assign (p : pointer) (f : IntervalReport -> IntervalReport) : Go unit :=
  fun w => match p with
           | Nil => None
           | Addr l => match heap w !! l with
                       | Some r => Some (tt, mkWorld (<[l := f r]> (heap w)) (store w) (stdout w) (logged w))
                       | None => None
                       end
           end.

Definition print (o : output) : Go unit :=
  fun w => Some (tt, mkWorld (heap w) (store w) (stdout w ++ [o]) (logged w)).

Definition log_Printf (e : error) : Go unit :=
  fun w => Some (tt, mkWorld (heap w) (store w) (stdout w) (logged w ++ [e])).

(** ** Summaries (report.go, lines 74-109) *)

(** Insert: [s.m[r.Role] = r]. *)
Definition Insert (r : pointer) : Go unit :=
  rep <~ load r ;;
  fun w => Some (tt, mkWorld (heap w) (<[Role rep := r]> (store w)) (stdout w) (logged w)).

(** Len: [len(s.m)]. *)
Definition Len : Go Z :=
  fun w => Some (Z.of_nat (size (store w)), w).

(** Empty: [len(s.m) == 0]. *)
Definition Empty : Go bool :=
  fun w => Some (Z.of_nat (size (store w)) =? 0, w).

(** findRole: the stored pointer, or nil. *)
Definition findRole (role : string) : Go pointer :=
  fun w => Some (match store w !! role with
                 | Some v => v
                 | None => Nil
                 end, w).

(** ** safeIntervalReport (report.go, lines 114-151) *)

Definition safeIntervalReport (role : string) : Go pointer :=
  rep <~ findRole role ;;
  match rep with
  | Nil => ret Nil
  | _ =>
    r <~ load rep ;;
    safeRep <~ new (mkIntervalReport (PID r) (Role r) (InitTimestamp r)
                      (Timestamp r) (Age r) (WindowRate r) (StandardDev r)
                      (LifetimeRate r) (CurrentRate r) (TimesRestated r)
                      (VirtMemoryBytes r) (RSSBytes r) (RateHistogram r)) ;;
    c <~ load safeRep ;;
    (if IsNaN (CurrentRate c) then assign safeRep (set_CurrentRate minus_one) else ret tt) ;;;
    c <~ load safeRep ;;
    (if IsNaN (LifetimeRate c) then assign safeRep (set_LifetimeRate minus_one) else ret tt) ;;;
    c <~ load safeRep ;;
    (if IsNaN (StandardDev c) then assign safeRep (set_StandardDev minus_one) else ret tt) ;;;
    c <~ load safeRep ;;
    (if IsNaN (WindowRate c) then assign safeRep (set_WindowRate minus_one) else ret tt) ;;;
    ret safeRep
  end.

(** ** json.Marshal on the values of this file *)

Definition rbind {A B} (x : result A) (k : A -> result B) : result B :=
  match x with
  | Ok a => k a
  | Err e => Err e
  end.

Notation "x <- c ;;! k" := (rbind c (fun x => k))
  (at level 100, c at next level, right associativity).

(** A float64 encodes as a number; NaN and the infinities are refused with
    an UnsupportedValueError. *)
Definition marshalFloat (f : float64) : result json :=
  if IsInf f || IsNaN f then Err (UnsupportedValueError f) else Ok (JFloat f).

(** A time.Time encodes through its MarshalJSON method. *)
Definition marshalTime (t : Time) : result json :=
  match MarshalJSON t with
  | Some s => Ok (JString s)
  | None => Err MarshalerError
  end.

Definition key_le (a b : string * Z) : Prop := String.leb a.1 b.1 = true.

#[local] Instance key_le_dec : RelDecision key_le.
Proof. intros a b. unfold key_le. apply _. Defined.

(** A map encodes as an object with its keys sorted; the nil map as null. *)
Definition marshalHistogram (h : option (gmap string Z)) : json :=
  match h with
  | None => JNull
  | Some h => JObject (map (fun kv => (kv.1, JNumber kv.2))
                           (merge_sort key_le (map_to_list h)))
  end.

(** The struct encodes as an object, fields in declaration order under
    their [json] tags; the first field that fails aborts the encoding. *)
Definition marshalReport (r : IntervalReport) : result json :=
  first_seen <- marshalTime (InitTimestamp r) ;;!
  last_seen <- marshalTime (Timestamp r) ;;!
  window_rate <- marshalFloat (WindowRate r) ;;!
  standard_dev <- marshalFloat (StandardDev r) ;;!
  lifetime_rate <- marshalFloat (LifetimeRate r) ;;!
  current_rate <- marshalFloat (CurrentRate r) ;;!
  Ok (JObject [("pid", JNumber (PID r));
               ("role", JString (Role r));
               ("first_seen", first_seen);
               ("last_seen", last_seen);
               ("age", JNumber (Age r));
               ("window_rate", window_rate);
               ("standard_dev", standard_dev);
               ("lifetime_rate", lifetime_rate);
               ("current_rate", current_rate);
               ("times_restarted", JNumber (TimesRestated r));
               ("virtual_memory_bytes", JNumber (VirtMemoryBytes r));
               ("rss_bytes", JNumber (RSSBytes r));
               ("rate_histogram", marshalHistogram (RateHistogram r))]).

(** [json.Marshal(rep)] for [rep : *IntervalReport]: nil encodes as null. *)
Definition Marshal (rep : pointer) : Go (result json) :=
  match rep with
  | Nil => ret (Ok JNull)
  | _ => r <~ load rep ;; ret (marshalReport r)
  end.

(** The elements of a slice, in order; the first failure aborts. *)
Fixpoint marshalElements (l : list pointer) : Go (result (list json)) :=
  match l with
  | [] => ret (Ok [])
  | p :: l' =>
    x <~ Marshal p ;;
    match x with
    | Err e => ret (Err e)
    | Ok j =>
      xs <~ marshalElements l' ;;
      ret (js <- xs ;;! Ok (j :: js))
    end
  end.

(** [json.Marshal(l)] for [l : []*IntervalReport]. *)
Definition MarshalSlice (l : list pointer) : Go (result json) :=
  xs <~ marshalElements l ;;
  ret (js <- xs ;;! Ok (JArray js)).

(** ** RoleToJSON, ToJSON and All (report.go, lines 156-197) *)

Definition RoleToJSON (role : string) : Go (result json) :=
  rep <~ safeIntervalReport role ;;
  match rep with
  | Nil => ret (Err errNoInfoForRole)
  | _ => Marshal rep
  end.

(** [for role := range s.m { l = append(l, s.safeIntervalReport(role)) }].
    Go leaves the order of a map iteration unspecified: [order] is the
    order in which this iteration visits the keys. *)
Fixpoint ToJSON_range (order : list string) (l : list pointer) : Go (list pointer) :=
  match order with
  | [] => ret l
  | role :: order' =>
    p <~ safeIntervalReport role ;;
    ToJSON_range order' (l ++ [p])
  end.

Definition ToJSON (order : list string) : Go (result json) :=
  l <~ ToJSON_range order [] ;;
  MarshalSlice l.

(** [l[c] = p]; an index out of range panics. *)
Definition set_index (l : list pointer) (c : nat) (p : pointer) : Go (list pointer) :=
  if decide (c < length l)%nat then ret (<[c := p]> l) else panic.

Fixpoint All_range (order : list string) (l : list pointer) (c : nat) : Go (list pointer) :=
  match order with
  | [] => ret l
  | role :: order' =>
    p <~ safeIntervalReport role ;;
    l' <~ set_index l c p ;;
    print (Text ("role => " ++ role ++ nl)) ;;;
    All_range order' l' (S c)
  end.

Definition All (order : list string) : Go (result (list pointer)) :=
  n <~ Len ;;
  if n =? 0 then ret (Err errZeroSummaries)
  else
    n <~ Len ;;
    l <~ All_range order (replicate (Z.to_nat n) Nil) 0%nat ;;
    ret (Ok l).

(** [order] is an order in which a [range] over the store can visit it:
    every key once. *)
Definition range_order (w : World) (order : list string) : Prop :=
  order ≡ₚ (map_to_list (store w)).*1.

(** ** startIntervalReport (report.go, lines 49-72) *)

(** What one [select] of the loop finds ready. *)
Inductive event : Type :=
  | Recv (v : pointer)            (* case v := <-c *)
  | Tick (order : list string)    (* case <-tick.C, with the order of the range in ToJSON *)
  | Idle.                         (* default: wait one second *)

Inductive status : Type :=
  | Running
  | Returned.

(** One iteration of the [for] loop. *)
Definition loop_body (e : event) : Go status :=
  match e with
  | Recv v =>
    match v with
    | Nil => ret Returned
    | _ => Insert v ;;; ret Running
    end
  | Tick order =>
    empty <~ Empty ;;
    if negb empty then
      res <~ ToJSON order ;;
      match res with
      | Err err => log_Printf err ;;; ret Running
      | Ok data => print (Document data) ;;; ret Running
      end
    else ret Running
  | Idle => ret Running
  end.

(** The loop over a schedule of [select] outcomes. *)
Fixpoint startIntervalReport (sched : list event) : Go status :=
  match sched with
  | [] => ret Running
  | e :: sched' =>
    st <~ loop_body e ;;
    match st with
    | Returned => ret Returned
    | Running => startIntervalReport sched'
    end
  end.

(** ** The Sample Window *)

Module SampleWindow.






End SampleWindow.

(** ** Notions used in the statements *)

(** The four rate figures of a report. *)
Inductive figure : Type :=
  | FWindowRate
  | FStandardDev
  | FLifetimeRate
  | FCurrentRate.

Definition figure_of (f : figure) (r : IntervalReport) : float64 :=
  match f with
  | FWindowRate => WindowRate r
  | FStandardDev => StandardDev r
  | FLifetimeRate => LifetimeRate r
  | FCurrentRate => CurrentRate r
  end.

(** The [json] tag of a figure. *)
Definition figure_tag (f : figure) : string :=
  match f with
  | FWindowRate => "window_rate"
  | FStandardDev => "standard_dev"
  | FLifetimeRate => "lifetime_rate"
  | FCurrentRate => "current_rate"
  end.

(** What safeIntervalReport leaves in a figure. *)
Definition safe (x : float64) : float64 := if IsNaN x then minus_one else x.

(** The report that safeIntervalReport builds from [r]. *)
Definition sanitized (r : IntervalReport) : IntervalReport :=
  mkIntervalReport (PID r) (Role r) (InitTimestamp r) (Timestamp r) (Age r)
    (safe (WindowRate r)) (safe (StandardDev r)) (safe (LifetimeRate r))
    (safe (CurrentRate r)) (TimesRestated r) (VirtMemoryBytes r) (RSSBytes r)
    (RateHistogram r).

(** [role] is stored at [l], which holds [r]. *)
Definition stored (w : World) (role : string) (l : loc) (r : IntervalReport) : Prop :=
  store w !! role = Some (Addr l) /\ heap w !! l = Some r.

(** The store after [safeIntervalReport] has allocated a copy of [r]. *)
Definition with_copy (w : World) (r : IntervalReport) : World :=
  mkWorld (<[fresh (dom (heap w)) := sanitized r]> (heap w))
          (store w) (stdout w) (logged w).

(** What [Insert] guarantees of an entry: the pointer is allocated and the
    key is the role of the report behind it. *)
Definition holds_role (h : gmap loc IntervalReport) (role : string) (p : pointer) : Prop :=
  match p with
  | Nil => False
  | Addr l => match h !! l with
              | Some r => Role r = role
              | None => False
              end
  end.

Definition consistent (w : World) : Prop :=
  map_Forall (holds_role (heap w)) (store w).

(** The later state [w'] has all the cells of [w], unchanged, and the same
    store and log. *)
Definition grows (w w' : World) : Prop :=
  heap w ⊆ heap w' /\ store w' = store w /\ logged w' = logged w.

(** [p] points, in [w'], to a cell allocated after [w] that holds the
    sanitized copy of the report that [w] stores for [role]. *)
Definition copied (w w' : World) (role : string) (p : pointer) : Prop :=
  exists l r l', stored w role l r /\ p = Addr l' /\
                 heap w !! l' = None /\ heap w' !! l' = Some (sanitized r).

(** The state after [Insert] of the pointer [Addr l] to the report [r]. *)
Definition inserted (w : World) (l : loc) (r : IntervalReport) : World :=
  mkWorld (heap w) (<[Role r := Addr l]> (store w)) (stdout w) (logged w).

Fixpoint assoc (tag : string) (fields : list (string * json)) : option json :=
  match fields with
  | [] => None
  | (k, v) :: fields' => if String.eqb tag k then Some v else assoc tag fields'
  end.

(** The member [tag] of an object. *)
Definition member (tag : string) (j : json) : option json :=
  match j with
  | JObject fields => assoc tag fields
  | _ => None
  end.

(** Every float64 that occurs in a document. *)
Fixpoint floats_of (j : json) : list float64 :=
  match j with
  | JFloat f => [f]
  | JArray l =>
      (fix elements (l : list json) : list float64 :=
         match l with
         | [] => []
         | x :: l' => floats_of x ++ elements l'
         end) l
  | JObject fields =>
      (fix members (fs : list (string * json)) : list float64 :=
         match fs with
         | [] => []
         | kv :: fs' => floats_of kv.2 ++ members fs'
         end) fields
  | _ => []
  end.

(** A document can be written as JSON text: no NaN and no infinity in it. *)
Definition representable (j : json) : Prop :=
  Forall (fun f => IsNaN f = false /\ IsInf f = false) (floats_of j).

(** Every role of [order] has an entry in the store. *)
Definition all_stored (w : World) (order : list string) : Prop :=
  Forall (fun role => is_Some (store w !! role)) order.

(** The encoder on a sequence of reports. *)
Fixpoint marshalReports (rs : list IntervalReport) : result (list json) :=
  match rs with
  | [] => Ok []
  | r :: rs' =>
    j <- marshalReport r ;;!
    js <- marshalReports rs' ;;!
    Ok (j :: js)
  end.

(** The state after [fmt.Printf] of the role in [All]. *)
Definition printed (w : World) (o : output) : World :=
  mkWorld (heap w) (store w) (stdout w ++ [o]) (logged w).

(** The line that [All] prints for a role. *)
Definition role_line (role : string) : output := Text ("role => " ++ role ++ nl).

(** [j] is the document of the report [r] after sanitization: it carries
    the role of [r], the sentinel [-1] for each figure that is NaN in [r],
    and the figure itself otherwise. *)
Definition sentinel_document (r : IntervalReport) (j : json) : Prop :=
  member "role" j = Some (JString (Role r)) /\
  forall f,
    (IsNaN (figure_of f r) = true -> member (figure_tag f) j = Some (JFloat minus_one)) /\
    (IsNaN (figure_of f r) = false -> member (figure_tag f) j = Some (JFloat (figure_of f r))).

(** Why the encoder can refuse the sanitized copy of [r]: an infinite
    figure, or a timestamp without a text form. *)
Definition refused (r : IntervalReport) : Prop :=
  (exists f, IsInf (figure_of f r) = true) \/
  MarshalJSON (InitTimestamp r) = None \/ MarshalJSON (Timestamp r) = None.

(** The outcome of encoding the sanitized copy of [r]. *)
Definition safely_encoded (r : IntervalReport) (res : result json) : Prop :=
  match res with
  | Ok j => sentinel_document r j /\ representable j
  | Err _ => refused r
  end.

(** [p] points in [w] to a report for [role]. *)
Definition report_for (w : World) (role : string) (p : pointer) : Prop :=
  exists l c, p = Addr l /\ heap w !! l = Some c /\ Role c = role.

(** [p] is nil or points to an allocated report. *)
Definition allocated (w : World) (p : pointer) : Prop :=
  match p with
  | Nil => True
  | Addr l => is_Some (heap w !! l)
  end.

(** The reports delivered on the channel by a schedule, in order. *)
Fixpoint received (sched : list event) : list loc :=
  match sched with
  | [] => []
  | Recv (Addr l) :: sched' => l :: received sched'
  | _ :: sched' => received sched'
  end.

(** The store after [Insert] of the report at [l], read in the heap [h]. *)
Definition insert_report (h : gmap loc IntervalReport) (m : gmap string pointer)
    (l : loc) : gmap string pointer :=
  match h !! l with
  | Some r => <[Role r := Addr l]> m
  | None => m
  end.

(** An event that can occur before the end-of-stream marker: what is
    received is not nil and points to a report allocated in [w]. *)
Definition deliverable (w : World) (e : event) : Prop :=
  match e with
  | Recv Nil => False
  | Recv (Addr l) => is_Some (heap w !! l)
  | _ => True
  end.

(** The state after a failed report has been logged. *)
Definition logged_failure (w : World) (e : error) : World :=
  mkWorld (heap w) (store w) (stdout w) (logged w ++ [e]).

(** A finite value: a zero or a non-zero finite number. *)
Definition finite (x : float64) : Prop :=
  match x with
  | S754_zero _ | S754_finite _ _ _ => True
  | _ => False
  end.

(** ** Concrete reports, states and windows *)

Definition t1000 : Time := mkTime 1000 (Some "1970-01-01T00:16:40Z").
Definition t2000 : Time := mkTime 2000 (Some "1970-01-01T00:33:20Z").

(** A first report of a role: no rate is defined yet. *)
Definition report_fresh : IntervalReport :=
  mkIntervalReport 4242 "worker" t1000 t2000 1000000000000
    NaN NaN NaN NaN 0 4096 1024 None.

(** A report whose current rate is a division by a zero time delta. *)
Definition report_inf : IntervalReport :=
  mkIntervalReport 4242 "worker" t1000 t2000 1000000000000
    NaN NaN zero pInf 0 4096 1024 None.

Definition world_fresh : World :=
  mkWorld {[1%positive := report_fresh]} {["worker" := Addr 1%positive]} [] [].

Definition world_inf : World :=
  mkWorld {[1%positive := report_inf]} {["worker" := Addr 1%positive]} [] [].

Definition world_empty : World := mkWorld ∅ ∅ [] [].

(** A second report for the same role, and one for another role. *)
Definition report_later : IntervalReport :=
  mkIntervalReport 4242 "worker" t1000 t2000 1000000000000
    zero zero zero zero 0 8192 2048 None.

Definition report_manager : IntervalReport :=
  mkIntervalReport 17 "manager" t1000 t2000 1000000000000
    NaN NaN NaN NaN 0 4096 1024 None.

(** The producer's reports, and nothing in the store yet. *)
Definition world_start : World :=
  mkWorld (<[3%positive := report_manager]>
             (<[2%positive := report_later]> {[1%positive := report_fresh]}))
          ∅ [] [].

Definition schedule_before : list event :=
  [Idle; Recv (Addr 1%positive); Tick ["worker"]; Recv (Addr 3%positive);
   Recv (Addr 2%positive); Tick ["manager"; "worker"]].





(** ** Notions used in the further properties *)

(** An event of any schedule: what is received is nil or points to a report
    allocated in [w]. *)
Definition receivable (w : World) (e : event) : Prop :=
  match e with
  | Recv p => allocated w p
  | _ => True
  end.

(** The number of timer ticks in a schedule. *)
Fixpoint ticks (sched : list event) : nat :=
  match sched with
  | [] => 0
  | Tick _ :: sched' => S (ticks sched')
  | _ :: sched' => ticks sched'
  end.

(** The number of newline characters in a text. *)
Fixpoint newlines (s : string) : nat :=
  match s with
  | EmptyString => 0
  | String c s' =>
      ((if Ascii.eqb c (Ascii.ascii_of_nat 10) then 1 else 0) + newlines s')%nat
  end.

(** ** Properties of the embedding *)

(** *** float64 and the sentinel *)

Lemma IsNaN_spec (f : float64) : IsNaN f = true <-> f = NaN.
Proof.
  unfold IsNaN, SFeqb, NaN. destruct f as [s|s| |s m e]; simpl.
  - split; [discriminate | discriminate].
  - destruct s; simpl; split; discriminate.
  - tauto.
  - destruct s; rewrite Z.compare_refl, Pos.compare_cont_refl; simpl;
      split; discriminate.
Qed.

Lemma IsInf_infinity (s : bool) : IsInf (S754_infinity s) = true.
Proof. by destruct s. Qed.

Lemma safe_not_NaN (x : float64) : IsNaN (safe x) = false.
Proof. unfold safe. by destruct (IsNaN x) eqn:E. Qed.

Lemma safe_NaN (x : float64) : IsNaN x = true -> safe x = minus_one.
Proof. unfold safe. by intros ->. Qed.

Lemma safe_other (x : float64) : IsNaN x = false -> safe x = x.
Proof. unfold safe. by intros ->. Qed.

Lemma figure_of_sanitized (f : figure) (r : IntervalReport) :
  figure_of f (sanitized r) = safe (figure_of f r).
Proof. by destruct f. Qed.

(** *** The heap and safeIntervalReport *)

Lemma load_insert h s o g l r :
  load (Addr l) (mkWorld (<[l := r]> h) s o g) = Some (r, mkWorld (<[l := r]> h) s o g).
Proof. unfold load. simpl. by rewrite lookup_insert_eq. Qed.

Lemma assign_insert h s o g l r f :
  assign (Addr l) f (mkWorld (<[l := r]> h) s o g) = Some (tt, mkWorld (<[l := f r]> h) s o g).
Proof. unfold assign. simpl. by rewrite lookup_insert_eq, insert_insert_eq. Qed.

Lemma safeIntervalReport_absent w role :
  store w !! role = None -> safeIntervalReport role w = Some (Nil, w).
Proof. intros H. unfold safeIntervalReport, bind, findRole. by rewrite H. Qed.

Lemma safeIntervalReport_stored w role l r :
  stored w role l r ->
  safeIntervalReport role w = Some (Addr (fresh (dom (heap w))), with_copy w r).
Proof.
  intros [Hs Hh]. unfold safeIntervalReport, bind, findRole. rewrite Hs.
  unfold load at 1. rewrite Hh. unfold new, with_copy, sanitized, safe.
  generalize (fresh (dom (heap w))) as l'. intros l'.
  cbv beta iota. rewrite load_insert. cbv beta iota.
  cbn [CurrentRate].
  destruct (IsNaN (CurrentRate r));
    [rewrite assign_insert|unfold ret at 1];
    cbv beta iota; rewrite load_insert; cbv beta iota;
    unfold set_CurrentRate; cbn [LifetimeRate];
    (destruct (IsNaN (LifetimeRate r));
      [rewrite assign_insert|unfold ret at 1]);
    cbv beta iota; rewrite load_insert; cbv beta iota;
    unfold set_LifetimeRate; cbn [StandardDev];
    (destruct (IsNaN (StandardDev r));
      [rewrite assign_insert|unfold ret at 1]);
    cbv beta iota; rewrite load_insert; cbv beta iota;
    unfold set_StandardDev; cbn [WindowRate];
    (destruct (IsNaN (WindowRate r));
      [rewrite assign_insert|unfold ret at 1]);
    reflexivity.
Qed.

(** *** Consistency and growth of the state *)

Lemma consistent_lookup w role p :
  consistent w -> store w !! role = Some p ->
  exists l r, p = Addr l /\ stored w role l r /\ Role r = role.
Proof.
  intros Hc Hs. specialize (Hc role p Hs). unfold holds_role in Hc.
  destruct p as [|l]; [done|]. destruct (heap w !! l) as [r|] eqn:Hh; [|done].
  exists l, r. by repeat split.
Qed.

Lemma fresh_cell (w : World) : heap w !! fresh (dom (heap w)) = None.
Proof. apply not_elem_of_dom. apply is_fresh. Qed.

Lemma grows_refl w : grows w w.
Proof. by repeat split. Qed.

Lemma grows_trans w1 w2 w3 : grows w1 w2 -> grows w2 w3 -> grows w1 w3.
Proof.
  intros (H1 & H2 & H3) (H4 & H5 & H6). repeat split.
  - by etrans.
  - by rewrite H5.
  - by rewrite H6.
Qed.

Lemma grows_with_copy w r : grows w (with_copy w r).
Proof.
  repeat split. simpl. apply insert_subseteq, fresh_cell.
Qed.

Lemma grows_stored w w' role l r : grows w w' -> stored w role l r -> stored w' role l r.
Proof.
  intros (Hh & Hs & _) [H1 H2]. split; [by rewrite Hs|].
  by eapply lookup_weaken.
Qed.

Lemma grows_consistent w w' : grows w w' -> consistent w -> consistent w'.
Proof.
  intros (Hh & Hs & _) Hc role p Hp. rewrite Hs in Hp.
  destruct (consistent_lookup w role p Hc Hp) as (l & r & -> & [_ Hl] & Hr).
  unfold holds_role. by rewrite (lookup_weaken _ _ _ _ Hl Hh).
Qed.

Lemma grows_stored_inv w w' role l r :
  consistent w -> grows w w' -> stored w' role l r -> stored w role l r.
Proof.
  intros Hc Hg [H1 H2]. pose proof Hg as (Hh & Hs & _). rewrite Hs in H1.
  destruct (consistent_lookup w role _ Hc H1) as (l0 & r0 & [= <-] & [_ Hl] & _).
  split; [done|]. pose proof (lookup_weaken _ _ _ _ Hl Hh) as H3. congruence.
Qed.

Lemma consistent_empty h o g : consistent (mkWorld h ∅ o g).
Proof. apply map_Forall_empty. Qed.

(** *** Insert and findRole *)

Lemma Insert_allocated w l r :
  heap w !! l = Some r -> Insert (Addr l) w = Some (tt, inserted w l r).
Proof. intros H. unfold Insert, bind, load. by rewrite H. Qed.

Lemma Insert_nil w : Insert Nil w = None.
Proof. reflexivity. Qed.

Lemma consistent_inserted w l r :
  heap w !! l = Some r -> consistent w -> consistent (inserted w l r).
Proof.
  intros H Hc. unfold consistent, inserted. simpl.
  apply map_Forall_insert_2; [|done]. unfold holds_role. by rewrite H.
Qed.

Lemma findRole_stored w role l r :
  stored w role l r -> findRole role w = Some (Addr l, w).
Proof. intros [H _]. unfold findRole. by rewrite H. Qed.

(** *** The encoder *)

Lemma floats_of_JArray (l : list json) :
  floats_of (JArray l) = concat (map floats_of l).
Proof. simpl. induction l as [|x l IH]; [done|]. simpl. by rewrite IH. Qed.

Lemma floats_of_histogram h : floats_of (marshalHistogram h) = [].
Proof.
  destruct h as [h|]; [|done]. simpl.
  induction (merge_sort key_le (map_to_list h)) as [|kv l IH]; [done|].
  simpl. apply IH.
Qed.

Lemma marshalFloat_Ok f j :
  marshalFloat f = Ok j -> j = JFloat f /\ IsNaN f = false /\ IsInf f = false.
Proof.
  unfold marshalFloat. destruct (IsInf f), (IsNaN f); simpl; try discriminate.
  by intros [= <-].
Qed.

Lemma marshalFloat_infinity s :
  marshalFloat (S754_infinity s) = Err (UnsupportedValueError (S754_infinity s)).
Proof. by destruct s. Qed.

Lemma marshalReport_Ok r j :
  marshalReport r = Ok j ->
  (forall f, member (figure_tag f) j = Some (JFloat (figure_of f r))) /\
  member "role" j = Some (JString (Role r)) /\
  floats_of j = [WindowRate r; StandardDev r; LifetimeRate r; CurrentRate r] /\
  (forall f, IsNaN (figure_of f r) = false /\ IsInf (figure_of f r) = false).
Proof.
  unfold marshalReport, rbind, marshalTime.
  destruct (MarshalJSON (InitTimestamp r)) as [s1|]; [|discriminate].
  destruct (MarshalJSON (Timestamp r)) as [s2|]; [|discriminate].
  destruct (marshalFloat (WindowRate r)) as [j1|] eqn:E1; [|discriminate].
  destruct (marshalFloat (StandardDev r)) as [j2|] eqn:E2; [|discriminate].
  destruct (marshalFloat (LifetimeRate r)) as [j3|] eqn:E3; [|discriminate].
  destruct (marshalFloat (CurrentRate r)) as [j4|] eqn:E4; [|discriminate].
  apply marshalFloat_Ok in E1 as (-> & ? & ?).
  apply marshalFloat_Ok in E2 as (-> & ? & ?).
  apply marshalFloat_Ok in E3 as (-> & ? & ?).
  apply marshalFloat_Ok in E4 as (-> & ? & ?).
  intros [= <-]. split_and!; [by intros [] | done | | intros []; simpl; by split].
  simpl. by rewrite floats_of_histogram.
Qed.

(** A report whose figures are neither NaN nor infinite, and whose
    timestamps have a text form, is encoded. *)
Lemma marshalReport_total r :
  is_Some (MarshalJSON (InitTimestamp r)) -> is_Some (MarshalJSON (Timestamp r)) ->
  (forall f, IsNaN (figure_of f r) = false /\ IsInf (figure_of f r) = false) ->
  exists j, marshalReport r = Ok j.
Proof.
  intros [s1 H1] [s2 H2] Hf. unfold marshalReport, rbind, marshalTime, marshalFloat.
  rewrite H1, H2.
  destruct (Hf FWindowRate) as [A1 B1], (Hf FStandardDev) as [A2 B2],
    (Hf FLifetimeRate) as [A3 B3], (Hf FCurrentRate) as [A4 B4].
  cbn [figure_of] in *. rewrite A1, B1, A2, B2, A3, B3, A4, B4. simpl. eauto.
Qed.

(** An infinite figure makes the encoder fail. *)
Lemma marshalReport_infinite r f :
  IsInf (figure_of f r) = true -> exists e, marshalReport r = Err e.
Proof.
  intros Hf. destruct (marshalReport r) as [j|e] eqn:E; [|eauto].
  apply marshalReport_Ok in E as (_ & _ & _ & H). destruct (H f). congruence.
Qed.

(** *** RoleToJSON, ToJSON and All *)

Lemma Marshal_allocated w l r :
  heap w !! l = Some r -> Marshal (Addr l) w = Some (marshalReport r, w).
Proof. intros H. unfold Marshal, bind, load. by rewrite H. Qed.

Lemma RoleToJSON_absent w role :
  store w !! role = None -> RoleToJSON role w = Some (Err errNoInfoForRole, w).
Proof.
  intros H. unfold RoleToJSON, bind. by rewrite safeIntervalReport_absent.
Qed.

Lemma RoleToJSON_stored w role l r :
  stored w role l r ->
  RoleToJSON role w = Some (marshalReport (sanitized r), with_copy w r).
Proof.
  intros H. unfold RoleToJSON, bind. rewrite (safeIntervalReport_stored _ _ _ _ H).
  apply Marshal_allocated. simpl. apply lookup_insert_eq.
Qed.

Lemma copied_grows_l w0 w w' role p :
  consistent w0 -> grows w0 w -> copied w w' role p -> copied w0 w' role p.
Proof.
  intros Hc Hg (l & r & l' & Hs & -> & Hn & Hl).
  exists l, r, l'. split_and!; try done.
  - by eapply grows_stored_inv.
  - destruct Hg as (Hh & _). destruct (heap w0 !! l') eqn:E; [|done].
    by rewrite (lookup_weaken _ _ _ _ E Hh) in Hn.
Qed.

Lemma copied_grows_r w w1 w2 role p :
  grows w1 w2 -> copied w w1 role p -> copied w w2 role p.
Proof.
  intros (Hh & _) (l & r & l' & Hs & -> & Hn & Hl).
  exists l, r, l'. split_and!; try done. by eapply lookup_weaken.
Qed.

Lemma copied_with_copy w role l r :
  stored w role l r -> copied w (with_copy w r) role (Addr (fresh (dom (heap w)))).
Proof.
  intros H. exists l, r, (fresh (dom (heap w))).
  split_and!; [done|done|apply fresh_cell|apply lookup_insert_eq].
Qed.

Lemma all_stored_grows w w' order : grows w w' -> all_stored w order -> all_stored w' order.
Proof. intros (_ & Hs & _). unfold all_stored. by rewrite Hs. Qed.

Lemma ToJSON_range_spec order : forall l w,
  consistent w -> all_stored w order ->
  exists ps w', ToJSON_range order l w = Some (l ++ ps, w') /\
                grows w w' /\ stdout w' = stdout w /\
                Forall2 (copied w w') order ps.
Proof.
  induction order as [|role order IH]; intros l w Hc Ha.
  - exists [], w. rewrite app_nil_r. split_and!; auto using grows_refl.
  - apply Forall_cons in Ha as [[p Hp] Ha].
    destruct (consistent_lookup _ _ _ Hc Hp) as (l0 & r & -> & Hs & _).
    pose proof (grows_with_copy w r) as Hg.
    destruct (IH (l ++ [Addr (fresh (dom (heap w)))]) (with_copy w r))
      as (ps & w' & Hrun & Hg' & Ho & Hps).
    { by eapply grows_consistent. }
    { by eapply all_stored_grows. }
    exists (Addr (fresh (dom (heap w))) :: ps), w'.
    split_and!.
    + simpl. unfold bind. rewrite (safeIntervalReport_stored _ _ _ _ Hs).
      rewrite Hrun. by rewrite <- app_assoc.
    + by eapply grows_trans.
    + by rewrite Ho.
    + constructor.
      * eapply copied_grows_r; [done|]. by eapply copied_with_copy.
      * eapply Forall2_impl; [done|]. intros role' p'. by apply copied_grows_l.
Qed.

Lemma marshalElements_spec w ps : forall rs,
  Forall2 (fun p r => exists l, p = Addr l /\ heap w !! l = Some r) ps rs ->
  marshalElements ps w = Some (marshalReports rs, w).
Proof.
  induction ps as [|p ps IH]; intros rs H.
  - by apply Forall2_nil_inv_l in H as ->.
  - apply Forall2_cons_inv_l in H as (r & rs' & (l & -> & Hl) & H & ->).
    cbn [marshalElements marshalReports]. unfold bind at 1.
    rewrite (Marshal_allocated _ _ _ Hl). unfold rbind at 1.
    destruct (marshalReport r) as [j|e]; [|done].
    unfold bind. by rewrite (IH _ H).
Qed.

Lemma marshalReports_Ok rs : forall js,
  marshalReports rs = Ok js -> Forall2 (fun r j => marshalReport r = Ok j) rs js.
Proof.
  induction rs as [|r rs IH]; intros js; simpl.
  - intros [= <-]. constructor.
  - unfold rbind. destruct (marshalReport r) as [j|] eqn:E; [|done].
    destruct (marshalReports rs) as [js'|]; [|done].
    intros [= <-]. constructor; [done|by apply IH].
Qed.

(** The sanitized copies that a range over [order] produces. *)
Lemma copied_reports w w' order ps :
  Forall2 (copied w w') order ps ->
  exists rs, Forall2 (fun role r => exists l, stored w role l r) order rs /\
             Forall2 (fun p r => exists l, p = Addr l /\ heap w' !! l = Some r)
                     ps (sanitized <$> rs).
Proof.
  induction 1 as [|role p order ps (l & r & l' & Hs & -> & _ & Hl) _ (rs & H1 & H2)].
  - exists []. split; constructor.
  - exists (r :: rs). split; constructor; eauto.
Qed.

Lemma ToJSON_spec order w :
  consistent w -> all_stored w order ->
  exists rs w',
    ToJSON order w = Some (js <- marshalReports (sanitized <$> rs) ;;! Ok (JArray js), w') /\
    grows w w' /\ stdout w' = stdout w /\
    Forall2 (fun role r => exists l, stored w role l r) order rs.
Proof.
  intros Hc Ha.
  destruct (ToJSON_range_spec order [] w Hc Ha) as (ps & w' & Hrun & Hg & Ho & Hps).
  destruct (copied_reports _ _ _ _ Hps) as (rs & H1 & H2).
  exists rs, w'. split_and!; try done.
  unfold ToJSON, bind. rewrite Hrun. simpl. unfold MarshalSlice, bind.
  by rewrite (marshalElements_spec _ _ _ H2).
Qed.

Lemma grows_printed w o : grows w (printed w o).
Proof. by repeat split. Qed.

Lemma All_range_spec order : forall l c w,
  consistent w -> all_stored w order -> (c + length order <= length l)%nat ->
  exists ps w',
    All_range order l c w = Some (take c l ++ ps ++ drop (c + length order) l, w') /\
    grows w w' /\ stdout w' = stdout w ++ (role_line <$> order) /\
    Forall2 (copied w w') order ps.
Proof.
  induction order as [|role order IH]; intros l c w Hc Ha Hlen.
  - exists [], w. simpl. rewrite Nat.add_0_r, take_drop, app_nil_r.
    split_and!; auto using grows_refl.
  - apply Forall_cons in Ha as [[p Hp] Ha]. simpl in Hlen.
    destruct (consistent_lookup _ _ _ Hc Hp) as (l0 & r & -> & Hs & _).
    set (p := Addr (fresh (dom (heap w)))).
    set (w1 := printed (with_copy w r) (role_line role)).
    assert (grows w w1) as Hg.
    { eapply grows_trans; [apply grows_with_copy|apply grows_printed]. }
    destruct (IH (<[c := p]> l) (S c) w1) as (ps & w' & Hrun & Hg' & Ho & Hps).
    { by eapply grows_consistent. }
    { by eapply all_stored_grows. }
    { rewrite length_insert. lia. }
    exists (p :: ps), w'. split_and!.
    + cbn [All_range]. unfold bind at 1.
      rewrite (safeIntervalReport_stored _ _ _ _ Hs). fold p.
      unfold bind at 1, set_index. destruct (decide (c < length l)%nat); [|lia].
      unfold ret at 1. unfold bind at 1, print. fold (role_line role).
      fold (printed (with_copy w r) (role_line role)). fold w1. rewrite Hrun.
      do 2 f_equal.
      rewrite (take_S_r _ _ p) by (apply list_lookup_insert_eq; lia).
      rewrite take_insert_ge by lia. rewrite drop_insert_lt by lia.
      rewrite <- app_assoc. simpl. by rewrite Nat.add_succ_r.
    + by eapply grows_trans.
    + rewrite Ho. simpl. by rewrite <- app_assoc.
    + constructor.
      * eapply copied_grows_r; [done|]. eapply copied_grows_r; [apply grows_printed|].
        by eapply copied_with_copy.
      * eapply Forall2_impl; [done|]. intros role' p'. by apply copied_grows_l.
Qed.

Lemma range_order_elem w order role :
  range_order w order -> role ∈ order <-> is_Some (store w !! role).
Proof.
  unfold range_order. intros ->. rewrite list_elem_of_fmap. split.
  - intros ([k p] & -> & H). apply elem_of_map_to_list in H. by exists p.
  - intros [p H]. exists (role, p). split; [done|]. by apply elem_of_map_to_list.
Qed.

Lemma range_order_all_stored w order : range_order w order -> all_stored w order.
Proof.
  intros H. apply Forall_forall. intros role Hr. by apply (range_order_elem w order).
Qed.

Lemma range_order_length w order : range_order w order -> length order = size (store w).
Proof.
  unfold range_order. intros ->. by rewrite length_fmap, length_map_to_list.
Qed.


Lemma All_empty order w :
  size (store w) = 0%nat -> All order w = Some (Err errZeroSummaries, w).
Proof. intros H. unfold All, bind, Len. by rewrite H. Qed.

Lemma All_spec order w :
  consistent w -> range_order w order -> size (store w) <> 0%nat ->
  exists ps w',
    All order w = Some (Ok ps, w') /\
    grows w w' /\ stdout w' = stdout w ++ (role_line <$> order) /\
    Forall2 (copied w w') order ps.
Proof.
  intros Hc Ho Hn.
  pose proof (range_order_length _ _ Ho) as Hlen.
  destruct (All_range_spec order (replicate (size (store w)) Nil) 0%nat w Hc)
    as (ps & w' & Hrun & Hg & Hout & Hps).
  { by apply range_order_all_stored. }
  { rewrite length_replicate. lia. }
  exists ps, w'. split_and!; try done.
  unfold All, bind, Len. destruct (Z.eqb_spec (Z.of_nat (size (store w))) 0); [lia|].
  rewrite Nat2Z.id, Hrun. unfold ret. do 3 f_equal.
  rewrite take_0, drop_ge, app_nil_r; [done|].
  rewrite length_replicate. lia.
Qed.

Lemma safe_IsInf (x : float64) : IsInf (safe x) = IsInf x.
Proof.
  unfold safe. destruct (IsNaN x) eqn:E; [|done].
  apply IsNaN_spec in E as ->. reflexivity.
Qed.

Lemma stored_functional w role l1 r1 l2 r2 :
  stored w role l1 r1 -> stored w role l2 r2 -> l1 = l2 /\ r1 = r2.
Proof. intros [H1 H2] [H3 H4]. assert (l1 = l2) as -> by congruence. split; congruence. Qed.

Lemma marshal_sanitized_Ok r j :
  marshalReport (sanitized r) = Ok j -> sentinel_document r j /\ representable j.
Proof.
  intros H. apply marshalReport_Ok in H as (Hm & Hr & Hf & Hfin).
  split; [split|].
  - done.
  - intros f. rewrite Hm, figure_of_sanitized. split; intros E.
    + by rewrite safe_NaN.
    + by rewrite safe_other.
  - unfold representable. rewrite Hf.
    repeat constructor;
      [apply (Hfin FWindowRate)|apply (Hfin FWindowRate)|
       apply (Hfin FStandardDev)|apply (Hfin FStandardDev)|
       apply (Hfin FLifetimeRate)|apply (Hfin FLifetimeRate)|
       apply (Hfin FCurrentRate)|apply (Hfin FCurrentRate)].
Qed.

Lemma marshal_sanitized_infinite r f :
  IsInf (figure_of f r) = true -> exists e, marshalReport (sanitized r) = Err e.
Proof.
  intros H. apply (marshalReport_infinite _ f).
  by rewrite figure_of_sanitized, safe_IsInf.
Qed.

Lemma marshalReports_Err rs r e :
  r ∈ rs -> marshalReport r = Err e -> exists e', marshalReports rs = Err e'.
Proof.
  induction 1 as [r rs|r r' rs _ IH]; intros He; simpl; unfold rbind.
  - rewrite He. eauto.
  - destruct (marshalReport r'); [|eauto].
    destruct (IH He) as [e' ->]. eauto.
Qed.

Lemma representable_JArray js :
  Forall representable js -> representable (JArray js).
Proof.
  unfold representable. rewrite floats_of_JArray.
  induction 1 as [|j js Hj _ IH]; simpl; [constructor|].
  by apply Forall_app.
Qed.

(** The report of a stored role among the reports that a range visits. *)
Lemma range_reports_lookup w order rs role l r :
  range_order w order -> stored w role l r ->
  Forall2 (fun role r => exists l, stored w role l r) order rs ->
  exists i, order !! i = Some role /\ rs !! i = Some r.
Proof.
  intros Ho Hs HF.
  assert (role ∈ order) as Hin.
  { apply (range_order_elem w order role Ho). destruct Hs as [-> _]. eauto. }
  apply list_elem_of_lookup in Hin as [i Hi]. exists i. split; [done|].
  destruct (Forall2_lookup_l _ _ _ _ _ HF Hi) as (r' & Hr' & l' & Hs').
  by destruct (stored_functional _ _ _ _ _ _ Hs Hs') as [_ ->].
Qed.

Lemma marshal_sanitized_Err r e :
  marshalReport (sanitized r) = Err e -> refused r.
Proof.
  intros He. unfold refused.
  destruct (MarshalJSON (InitTimestamp r)) as [s1|] eqn:H1; [|auto].
  destruct (MarshalJSON (Timestamp r)) as [s2|] eqn:H2; [|auto].
  left.
  destruct (IsInf (WindowRate r)) eqn:E1; [by exists FWindowRate|].
  destruct (IsInf (StandardDev r)) eqn:E2; [by exists FStandardDev|].
  destruct (IsInf (LifetimeRate r)) eqn:E3; [by exists FLifetimeRate|].
  destruct (IsInf (CurrentRate r)) eqn:E4; [by exists FCurrentRate|].
  destruct (marshalReport_total (sanitized r)) as [j Hj].
  - simpl. by rewrite H1.
  - simpl. by rewrite H2.
  - intros f. rewrite figure_of_sanitized, safe_not_NaN, safe_IsInf. by destruct f.
  - congruence.
Qed.

Lemma marshal_sanitized_encoded r : safely_encoded r (marshalReport (sanitized r)).
Proof.
  destruct (marshalReport (sanitized r)) as [j|e] eqn:E; simpl.
  - by apply marshal_sanitized_Ok.
  - by eapply marshal_sanitized_Err.
Qed.

Lemma marshalReports_Err_inv rs : forall e,
  marshalReports rs = Err e -> exists r e', r ∈ rs /\ marshalReport r = Err e'.
Proof.
  induction rs as [|r rs IH]; intros e; simpl; [done|]. unfold rbind.
  destruct (marshalReport r) as [j|e1] eqn:E1.
  - destruct (marshalReports rs) as [js|e2]; [done|].
    destruct (IH e2 eq_refl) as (r' & e' & Hin & He). intros _.
    exists r', e'. split; [by right|done].
  - intros _. exists r, e1. split; [by left|done].
Qed.

Lemma copied_report_for w w' role p :
  consistent w -> copied w w' role p -> report_for w' role p.
Proof.
  intros Hc (l & r & l' & Hs & -> & _ & Hl). exists l', (sanitized r).
  split_and!; [done|done|]. simpl. pose proof Hs as [Hk _].
  destruct (consistent_lookup _ _ _ Hc Hk) as (l0 & r0 & _ & Hs' & Hr).
  by destruct (stored_functional _ _ _ _ _ _ Hs Hs') as [_ ->].
Qed.

(** *** ToJSON returns for every order *)

Lemma allocated_grows w w' p : grows w w' -> allocated w p -> allocated w' p.
Proof.
  intros (Hh & _) H. destruct p as [|l]; [done|]. destruct H as [r Hr].
  exists r. by eapply lookup_weaken.
Qed.

Lemma safeIntervalReport_total w role :
  consistent w ->
  exists p w', safeIntervalReport role w = Some (p, w') /\
               grows w w' /\ stdout w' = stdout w /\ allocated w' p.
Proof.
  intros Hc. destruct (store w !! role) as [p|] eqn:E.
  - destruct (consistent_lookup _ _ _ Hc E) as (l & r & -> & Hs & _).
    exists (Addr (fresh (dom (heap w)))), (with_copy w r). split_and!.
    + by eapply safeIntervalReport_stored.
    + apply grows_with_copy.
    + done.
    + simpl. rewrite lookup_insert_eq. eauto.
  - exists Nil, w. split_and!; [by apply safeIntervalReport_absent|apply grows_refl|done..].
Qed.

Lemma ToJSON_range_total order : forall l w,
  consistent w ->
  exists ps w', ToJSON_range order l w = Some (l ++ ps, w') /\
                grows w w' /\ stdout w' = stdout w /\ Forall (allocated w') ps.
Proof.
  induction order as [|role order IH]; intros l w Hc.
  - exists [], w. rewrite app_nil_r. split_and!; auto using grows_refl.
  - destruct (safeIntervalReport_total w role Hc) as (p & w1 & Hrun1 & Hg1 & Ho1 & Hp).
    destruct (IH (l ++ [p]) w1) as (ps & w' & Hrun & Hg & Ho & Hps).
    { by eapply grows_consistent. }
    exists (p :: ps), w'. split_and!.
    + simpl. unfold bind. rewrite Hrun1, Hrun. by rewrite <- app_assoc.
    + by eapply grows_trans.
    + by rewrite Ho.
    + constructor; [by eapply allocated_grows|done].
Qed.

Lemma marshalElements_total w ps :
  Forall (allocated w) ps -> exists res, marshalElements ps w = Some (res, w).
Proof.
  induction 1 as [|p ps Hp _ [res IH]]; [by eexists|].
  cbn [marshalElements]. unfold bind at 1.
  assert (exists x, Marshal p w = Some (x, w)) as [x ->].
  { destruct p as [|l]; [by eexists|]. destruct Hp as [r Hr].
    eexists. by apply Marshal_allocated. }
  destruct x as [j|e]; [|by eexists]. unfold bind. rewrite IH. by eexists.
Qed.

Lemma ToJSON_total order w :
  consistent w ->
  exists res w', ToJSON order w = Some (res, w') /\ grows w w' /\ stdout w' = stdout w.
Proof.
  intros Hc. destruct (ToJSON_range_total order [] w Hc) as (ps & w' & Hrun & Hg & Ho & Hps).
  destruct (marshalElements_total w' ps Hps) as [res Hres].
  eexists _, w'. split_and!; [|done..].
  unfold ToJSON, bind. rewrite Hrun. simpl. unfold MarshalSlice, bind.
  by rewrite Hres.
Qed.

(** *** The loop *)

Lemma deliverable_grows w w' e : grows w w' -> deliverable w e -> deliverable w' e.
Proof.
  intros Hg H. destruct e as [[|l]| |]; try done.
  by apply (allocated_grows w w' (Addr l)).
Qed.

Lemma deliverable_received w sched :
  Forall (deliverable w) sched -> Forall (fun l => is_Some (heap w !! l)) (received sched).
Proof.
  induction 1 as [|e sched He _ IH]; [constructor|].
  destruct e as [[|l]| |]; simpl; try done. by constructor.
Qed.

Lemma foldl_insert_report_weaken h h' ls : forall m,
  h ⊆ h' -> Forall (fun l => is_Some (h !! l)) ls ->
  foldl (insert_report h') m ls = foldl (insert_report h) m ls.
Proof.
  induction ls as [|l ls IH]; intros m Hh Hls; [done|].
  apply Forall_cons in Hls as [[r Hr] Hls]. simpl.
  rewrite IH by done. unfold insert_report.
  by rewrite Hr, (lookup_weaken _ _ _ _ Hr Hh).
Qed.

Lemma loop_body_Recv w l r :
  heap w !! l = Some r -> loop_body (Recv (Addr l)) w = Some (Running, inserted w l r).
Proof. intros H. simpl. unfold bind. by rewrite (Insert_allocated _ _ _ H). Qed.

Lemma loop_body_Tick_empty w order :
  size (store w) = 0%nat -> loop_body (Tick order) w = Some (Running, w).
Proof. intros H. simpl. unfold bind, Empty. by rewrite H. Qed.

Lemma loop_body_Tick w order res w1 :
  size (store w) <> 0%nat -> ToJSON order w = Some (res, w1) ->
  loop_body (Tick order) w =
    Some (Running, match res with
                   | Ok data => printed w1 (Document data)
                   | Err err => logged_failure w1 err
                   end).
Proof.
  intros Hn Hrun. cbn [loop_body]. unfold bind at 1, Empty.
  destruct (Z.eqb_spec (Z.of_nat (size (store w))) 0); [lia|].
  cbn [negb]. unfold bind at 1. rewrite Hrun. by destruct res.
Qed.

Lemma loop_body_continues w e :
  consistent w -> deliverable w e ->
  exists w', loop_body e w = Some (Running, w') /\
             heap w ⊆ heap w' /\ consistent w' /\
             store w' = match e with
                        | Recv (Addr l) => insert_report (heap w) (store w) l
                        | _ => store w
                        end.
Proof.
  intros Hc He. destruct e as [[|l]|order|].
  - done.
  - destruct He as [r Hr]. exists (inserted w l r). split_and!.
    + by apply loop_body_Recv.
    + done.
    + by apply consistent_inserted.
    + unfold insert_report. by rewrite Hr.
  - destruct (decide (size (store w) = 0%nat)) as [Hz|Hnz].
    + exists w. split_and!; [by apply loop_body_Tick_empty|done..].
    + destruct (ToJSON_total order w Hc) as (res & w1 & Hrun & Hg & Ho).
      pose proof (grows_consistent _ _ Hg Hc) as Hc1.
      destruct Hg as (Hh & Hs & Hl).
      eexists. split; [by apply (loop_body_Tick _ _ res w1)|].
      by destruct res.
  - exists w. by split_and!.
Qed.

Lemma loop_until_marker before : forall w after,
  consistent w -> Forall (deliverable w) before ->
  exists w', startIntervalReport (before ++ Recv Nil :: after) w = Some (Returned, w') /\
             heap w ⊆ heap w' /\
             store w' = foldl (insert_report (heap w)) (store w) (received before).
Proof.
  induction before as [|e before IH]; intros w after Hc Hd.
  - exists w. by split_and!.
  - apply Forall_cons in Hd as [He Hd].
    destruct (loop_body_continues w e Hc He) as (w1 & Hstep & Hh & Hc1 & Hs).
    destruct (IH w1 after Hc1) as (w' & Hrun & Hh' & Hs').
    { eapply Forall_impl; [done|]. intros e' He'.
      destruct e' as [[|l]| |]; try done. destruct He' as [r Hr].
      exists r. by eapply lookup_weaken. }
    exists w'. split_and!.
    + simpl. unfold bind. by rewrite Hstep.
    + by etrans.
    + rewrite Hs', Hs.
      rewrite (foldl_insert_report_weaken (heap w) (heap w1)); [|done|].
      * by destruct e as [[|l]| |].
      * apply deliverable_received in Hd. by destruct e as [[|l]| |].
Qed.

(** Last write wins: after the inserts of [ls], the role of every report of
    [ls] is bound to a report of [ls] with that role. *)
Lemma foldl_insert_report_lookup h m ls l r :
  l ∈ ls -> h !! l = Some r ->
  exists l' r', l' ∈ ls /\ h !! l' = Some r' /\ Role r' = Role r /\
                foldl (insert_report h) m ls !! Role r = Some (Addr l').
Proof.
  induction ls as [|x ls IH] using rev_ind; intros Hin Hl.
  - by apply elem_of_nil in Hin.
  - rewrite foldl_app. simpl. unfold insert_report at 1.
    destruct (h !! x) as [rx|] eqn:Hx.
    + destruct (decide (Role rx = Role r)) as [Heq|Hne].
      * exists x, rx. split_and!; [|done|done|].
        { apply elem_of_app. right. by apply list_elem_of_singleton. }
        rewrite <- Heq. apply lookup_insert_eq.
      * apply elem_of_app in Hin as [Hin|Hin].
        -- destruct (IH Hin Hl) as (l' & r' & H1 & H2 & H3 & H4).
           exists l', r'. split_and!; [apply elem_of_app; by left|done|done|].
           by rewrite lookup_insert_ne.
        -- apply list_elem_of_singleton in Hin as ->. congruence.
    + apply elem_of_app in Hin as [Hin|Hin].
      * destruct (IH Hin Hl) as (l' & r' & H1 & H2 & H3 & H4).
        exists l', r'. split_and!; [apply elem_of_app; by left|done..].
      * apply list_elem_of_singleton in Hin as ->. congruence.
Qed.

(** *** String *)

(** The four lines of [String]. *)
Lemma String_lines i :
  IntervalReport_String i =
  (metric_line "bro_pid" (Role i) (PID i) ++ nl ++
   metric_line "bro_process_start_seconds" (Role i) (Unix (Timestamp i)) ++ nl ++
   metric_line "bro_process_age_seconds" (Role i) (toInt (Seconds (Age i))) ++ nl ++
   metric_line "bro_virtual_memory_bytes" (Role i) (VirtMemoryBytes i) ++ nl)%string.
Proof. reflexivity. Qed.

(** *** The Sample Window *)


Lemma digits2_pos_size p : digits2_pos p = Pos.size p.
Proof. induction p as [p IH|p IH|]; simpl; by rewrite ?IH. Qed.

Lemma digits2_pos_iter p k :
  digits2_pos (Pos.iter xO p k) = (digits2_pos p + k)%positive.
Proof.
  induction k as [|k IH] using Pos.peano_ind.
  - simpl. lia.
  - rewrite Pos.iter_succ. simpl. rewrite IH. lia.
Qed.

Lemma digits2_pos_bound p : Z.pos p < 2 ^ 53 -> Z.pos (digits2_pos p) <= 53.
Proof.
  intros H. rewrite digits2_pos_size.
  destruct (Z.le_gt_cases (Z.pos (Pos.size p)) 53) as [|Hgt]; [done|exfalso].
  pose proof (Pos.size_le p) as Hle.
  assert (2 ^ 54 <= 2 ^ Z.pos (Pos.size p)) by (apply Z.pow_le_mono_r; lia).
  assert (Z.pos (2 ^ Pos.size p) = 2 ^ Z.pos (Pos.size p)) as E by (by rewrite Pos2Z.inj_pow).
  assert (Z.pos (2 ^ Pos.size p) <= Z.pos p~0) by (by apply Pos2Z.pos_le_pos).
  change (2 ^ 54) with (2 * 2 ^ 53) in *. lia.
Qed.

Lemma ofZ_pos p :
  Z.pos p < 2 ^ 53 -> exists m e, ofZ (Z.pos p) = S754_finite false m e.
Proof.
  intros Hp. pose proof (digits2_pos_bound p Hp) as Hd.
  unfold ofZ, binary_normalize, binary_round.
  set (d := Z.pos (digits2_pos p)) in *.
  assert (fexp prec emax (d + 0) = d - 53) as ->.
  { unfold fexp, emin, prec, emax. lia. }
  assert (exists mz, shl_align p 0 (d - 53) = (mz, d - 53) /\ Z.pos (digits2_pos mz) = 53)
    as (mz & -> & Hmz).
  { unfold shl_align. rewrite Z.sub_0_r.
    destruct (d - 53) as [|q|q] eqn:E; [|lia|].
    - exists p. split; [done|]. fold d. lia.
    - exists (Pos.iter xO p q). split; [done|]. rewrite digits2_pos_iter.
      fold d in |- *. unfold d in *. lia. }
  unfold binary_round_aux, shr_fexp. simpl Zdigits2. rewrite Hmz.
  assert (fexp prec emax (53 + (d - 53)) - (d - 53) = 0) as ->.
  { unfold fexp, emin, prec, emax. unfold d. lia. }
  simpl. rewrite Hmz.
  assert (fexp prec emax (53 + (d - 53)) - (d - 53) = 0) as ->.
  { unfold fexp, emin, prec, emax. unfold d. lia. }
  simpl. destruct (Z.leb_spec (d - 53) (emax - prec)); [eauto|].
  unfold emax, prec in *. lia.
Qed.




(** ** The claims of the specification *)

(** C1 (as amended).  For a stored report [r], both serialization paths
    return; what RoleToJSON returns for the role of [r] is the encoding of
    the sanitized copy: a document without NaN or infinity in which every
    rate figure that is NaN in [r] is the sentinel -1, or an encoder error
    whose cause is an infinite figure or a timestamp, never a NaN.  The same
    holds of the element for [r] in the array of ToJSON.  An infinite figure
    is not replaced: it makes both paths fail. *)
Theorem serialization_sentinel w role l r order :
  consistent w -> stored w role l r -> range_order w order ->
  (exists res w1,
     RoleToJSON role w = Some (res, w1) /\ safely_encoded r res /\
     (forall f, IsInf (figure_of f r) = true -> exists e, res = Err e)) /\
  (exists res w2,
     ToJSON order w = Some (res, w2) /\
     match res with
     | Ok doc => representable doc /\
                 exists js j, doc = JArray js /\ j ∈ js /\ sentinel_document r j
     | Err _ => exists role' l' r', stored w role' l' r' /\ refused r'
     end /\
     (forall f, IsInf (figure_of f r) = true -> exists e, res = Err e)).
Proof.
  intros Hc Hs Ho. split.
  - exists (marshalReport (sanitized r)), (with_copy w r). split_and!.
    + by eapply RoleToJSON_stored.
    + apply marshal_sanitized_encoded.
    + intros f. apply marshal_sanitized_infinite.
  - destruct (ToJSON_spec order w Hc (range_order_all_stored _ _ Ho))
      as (rs & w' & Hrun & Hg & Hout & HF).
    destruct (range_reports_lookup _ _ _ _ _ _ Ho Hs HF) as (i & Hi & Hri).
    eexists _, w'. split; [exact Hrun|]. split.
    + destruct (marshalReports (sanitized <$> rs)) as [js|e] eqn:E; simpl.
      * apply marshalReports_Ok in E.
        assert ((sanitized <$> rs) !! i = Some (sanitized r)) as Hsi
          by (by rewrite list_lookup_fmap, Hri).
        destruct (Forall2_lookup_l _ _ _ _ _ E Hsi) as (j & Hj & Hm).
        split.
        -- apply representable_JArray. apply Forall_forall. intros j' Hj'.
           apply list_elem_of_lookup in Hj' as [k Hk].
           destruct (Forall2_lookup_r _ _ _ _ _ E Hk) as (r' & Hr' & Hm').
           apply list_lookup_fmap_Some in Hr' as (r0 & -> & _).
           by apply marshal_sanitized_Ok in Hm' as [_ ?].
        -- exists js, j. split_and!; [done| |].
           ++ apply list_elem_of_lookup. eauto.
           ++ by apply marshal_sanitized_Ok in Hm as [? _].
      * apply marshalReports_Err_inv in E as (r' & e' & Hin & He).
        apply list_elem_of_fmap in Hin as (r0 & -> & Hin).
        apply list_elem_of_lookup in Hin as [k Hk].
        destruct (Forall2_lookup_r _ _ _ _ _ HF Hk) as (role' & _ & l' & Hs').
        exists role', l', r0. split; [done|]. by eapply marshal_sanitized_Err.
    + intros f Hf. destruct (marshal_sanitized_infinite r f Hf) as [e He].
      destruct (marshalReports_Err (sanitized <$> rs) (sanitized r) e) as [e' ->].
      * apply list_elem_of_fmap. exists r. split; [done|].
        apply list_elem_of_lookup. eauto.
      * done.
      * simpl. eauto.
Qed.

Lemma serialization_sentinel_witness :
  (exists res w1,
     RoleToJSON "worker" world_fresh = Some (res, w1) /\
     safely_encoded report_fresh res /\
     (forall f, IsInf (figure_of f report_fresh) = true -> exists e, res = Err e)) /\
  (exists res w2,
     ToJSON ["worker"] world_fresh = Some (res, w2) /\
     match res with
     | Ok doc => representable doc /\
                 exists js j, doc = JArray js /\ j ∈ js /\
                              sentinel_document report_fresh j
     | Err _ => exists role' l' r', stored world_fresh role' l' r' /\ refused r'
     end /\
     (forall f, IsInf (figure_of f report_fresh) = true -> exists e, res = Err e)).
Proof.
  apply (serialization_sentinel world_fresh "worker" 1%positive report_fresh ["worker"]).
  - apply map_Forall_singleton. reflexivity.
  - split; reflexivity.
  - unfold range_order. vm_compute. reflexivity.
Defined.

(** C1 as stated fails on an infinite figure: the current rate of
    [report_inf] is +Inf, and neither path produces a document in which it
    reads -1; both return the encoder's error. *)
Lemma infinite_figure_not_sentinel :
  stored world_inf "worker" 1%positive report_inf /\
  IsInf (figure_of FCurrentRate report_inf) = true /\
  ~ (exists j w', RoleToJSON "worker" world_inf = Some (Ok j, w') /\
                  member (figure_tag FCurrentRate) j = Some (JFloat minus_one)) /\
  ~ (exists js j w', ToJSON ["worker"] world_inf = Some (Ok (JArray js), w') /\
                     j ∈ js /\
                     member (figure_tag FCurrentRate) j = Some (JFloat minus_one)).
Proof.
  split_and!.
  - split; reflexivity.
  - reflexivity.
  - intros (j & w' & H & _). vm_compute in H. discriminate.
  - intros (js & j & w' & H & _). vm_compute in H. discriminate.
Qed.

(** C2.  Serialization works on a copy: after RoleToJSON of any role, and
    after ToJSON whatever the order of its range, findRole of a stored role
    still returns the pointer that was inserted, and the report behind it is
    the one inserted, NaN figures included. *)
Theorem serialization_keeps_stored_report w role0 role l r order :
  consistent w -> stored w role l r ->
  (exists res w1,
     RoleToJSON role0 w = Some (res, w1) /\
     findRole role w1 = Some (Addr l, w1) /\ load (Addr l) w1 = Some (r, w1)) /\
  (exists res w2,
     ToJSON order w = Some (res, w2) /\
     findRole role w2 = Some (Addr l, w2) /\ load (Addr l) w2 = Some (r, w2)).
Proof.
  intros Hc Hs.
  assert (forall w', grows w w' ->
            findRole role w' = Some (Addr l, w') /\ load (Addr l) w' = Some (r, w'))
    as Hkeep.
  { intros w' Hg. pose proof (grows_stored _ _ _ _ _ Hg Hs) as Hs'. split.
    - by eapply findRole_stored.
    - destruct Hs' as [_ Hl]. unfold load. by rewrite Hl. }
  split.
  - destruct (store w !! role0) as [p|] eqn:E.
    + destruct (consistent_lookup _ _ _ Hc E) as (l0 & r0 & -> & Hs0 & _).
      exists (marshalReport (sanitized r0)), (with_copy w r0).
      split; [by eapply RoleToJSON_stored|]. apply Hkeep, grows_with_copy.
    + exists (Err errNoInfoForRole), w.
      split; [by apply RoleToJSON_absent|]. apply Hkeep, grows_refl.
  - destruct (ToJSON_total order w Hc) as (res & w' & Hrun & Hg & _).
    exists res, w'. split; [exact Hrun|]. by apply Hkeep.
Qed.

Lemma serialization_keeps_stored_report_witness :
  (exists res w1,
     RoleToJSON "worker" world_fresh = Some (res, w1) /\
     findRole "worker" w1 = Some (Addr 1%positive, w1) /\
     load (Addr 1%positive) w1 = Some (report_fresh, w1)) /\
  (exists res w2,
     ToJSON ["worker"] world_fresh = Some (res, w2) /\
     findRole "worker" w2 = Some (Addr 1%positive, w2) /\
     load (Addr 1%positive) w2 = Some (report_fresh, w2)).
Proof.
  apply (serialization_keeps_stored_report world_fresh "worker" "worker"
           1%positive report_fresh ["worker"]).
  - apply map_Forall_singleton. reflexivity.
  - split; reflexivity.
Defined.

(** C3.  Insert of a report followed by findRole of its role returns the
    pointer just inserted, and the report behind it is unchanged. *)
Theorem Insert_then_findRole w l r :
  heap w !! l = Some r ->
  exists w', Insert (Addr l) w = Some (tt, w') /\
             findRole (Role r) w' = Some (Addr l, w') /\
             load (Addr l) w' = Some (r, w').
Proof.
  intros H. exists (inserted w l r). split_and!.
  - by apply Insert_allocated.
  - unfold findRole, inserted. simpl. by rewrite lookup_insert_eq.
  - unfold load, inserted. simpl. by rewrite H.
Qed.

Lemma Insert_then_findRole_witness :
  exists w', Insert (Addr 1%positive) world_inf = Some (tt, w') /\
             findRole "worker" w' = Some (Addr 1%positive, w') /\
             load (Addr 1%positive) w' = Some (report_inf, w').
Proof.
  apply (Insert_then_findRole world_inf 1%positive report_inf). reflexivity.
Defined.

(** C4.  All fails exactly when the store holds no entry, with the
    zero-summaries error and no sequence; on a store with entries it
    returns, without error, one report per stored role, in the order of
    its range over the store. *)
Theorem All_fails_iff_empty w order :
  consistent w -> range_order w order ->
  exists res w',
    All order w = Some (res, w') /\
    ((exists e, res = Err e) <-> size (store w) = 0%nat) /\
    (size (store w) = 0%nat -> res = Err errZeroSummaries /\ w' = w) /\
    (size (store w) <> 0%nat ->
       exists ps, res = Ok ps /\ length ps = size (store w) /\
                  Forall2 (report_for w') order ps).
Proof.
  intros Hc Ho. destruct (decide (size (store w) = 0%nat)) as [Hz|Hnz].
  - exists (Err errZeroSummaries), w. split_and!.
    + by apply All_empty.
    + split; eauto.
    + done.
    + done.
  - destruct (All_spec order w Hc Ho Hnz) as (ps & w' & Hrun & Hg & Hout & HF).
    exists (Ok ps), w'. split_and!.
    + done.
    + split; [by intros [e ?]|done].
    + done.
    + intros _. exists ps. split_and!; [done| |].
      * rewrite <- (Forall2_length _ _ _ HF). by apply range_order_length.
      * eapply Forall2_impl; [done|]. intros role p. by apply copied_report_for.
Qed.

Lemma All_fails_iff_empty_witness :
  (exists res w',
    All [] world_empty = Some (res, w') /\
    ((exists e, res = Err e) <-> size (store world_empty) = 0%nat) /\
    (size (store world_empty) = 0%nat -> res = Err errZeroSummaries /\ w' = world_empty) /\
    (size (store world_empty) <> 0%nat ->
       exists ps, res = Ok ps /\ length ps = size (store world_empty) /\
                  Forall2 (report_for w') [] ps)) /\
  (exists res w',
    All ["worker"] world_fresh = Some (res, w') /\
    ((exists e, res = Err e) <-> size (store world_fresh) = 0%nat) /\
    (size (store world_fresh) = 0%nat -> res = Err errZeroSummaries /\ w' = world_fresh) /\
    (size (store world_fresh) <> 0%nat ->
       exists ps, res = Ok ps /\ length ps = size (store world_fresh) /\
                  Forall2 (report_for w') ["worker"] ps)).
Proof.
  split.
  - apply (All_fails_iff_empty world_empty []).
    + apply map_Forall_empty.
    + unfold range_order. vm_compute. reflexivity.
  - apply (All_fails_iff_empty world_fresh ["worker"]).
    + apply map_Forall_singleton. reflexivity.
    + unfold range_order. vm_compute. reflexivity.
Defined.

(** C5 (as amended).  RoleToJSON of a role without an entry returns the
    role-not-found error and leaves the state as it is.  On a stored role it
    returns what the encoder gives for the sanitized copy of that role's
    report: a document with the sentinel for every NaN figure, without
    error, when no figure is infinite and both timestamps have a text form;
    the encoder's error otherwise. *)
Theorem RoleToJSON_cases w role :
  (store w !! role = None ->
     RoleToJSON role w = Some (Err errNoInfoForRole, w)) /\
  (forall l r, stored w role l r ->
     exists res w',
       RoleToJSON role w = Some (res, w') /\
       res = marshalReport (sanitized r) /\ safely_encoded r res /\
       (is_Some (MarshalJSON (InitTimestamp r)) ->
        is_Some (MarshalJSON (Timestamp r)) ->
        (forall f, IsInf (figure_of f r) = false) ->
        exists j, res = Ok j)).
Proof.
  split; [apply RoleToJSON_absent|].
  intros l r Hs. exists (marshalReport (sanitized r)), (with_copy w r).
  split_and!; [by eapply RoleToJSON_stored|done|apply marshal_sanitized_encoded|].
  intros [s1 H1] [s2 H2] Hf.
  destruct (marshalReport (sanitized r)) as [j|e] eqn:E; [eauto|].
  apply marshal_sanitized_Err in E as [[f Hinf]|[?|?]]; [|congruence..].
  by rewrite Hf in Hinf.
Qed.

Lemma RoleToJSON_cases_witness :
  RoleToJSON "manager" world_fresh = Some (Err errNoInfoForRole, world_fresh) /\
  exists res w',
    RoleToJSON "worker" world_fresh = Some (res, w') /\
    res = marshalReport (sanitized report_fresh) /\
    safely_encoded report_fresh res /\
    exists j, res = Ok j.
Proof.
  destruct (RoleToJSON_cases world_fresh "manager") as [Habsent _].
  destruct (RoleToJSON_cases world_fresh "worker") as [_ Hstored].
  split; [apply Habsent; reflexivity|].
  destruct (Hstored 1%positive report_fresh) as (res & w' & H1 & H2 & H3 & H4).
  { split; reflexivity. }
  exists res, w'. do 3 (split; [done|]).
  apply H4; [by eexists|by eexists|by intros []].
Defined.

(** C5 as stated fails on a stored report with an infinite figure:
    RoleToJSON of its role returns an error and no document. *)
Lemma RoleToJSON_stored_role_error :
  stored world_inf "worker" 1%positive report_inf /\
  fst <$> RoleToJSON "worker" world_inf = Some (Err (UnsupportedValueError pInf)).
Proof. split; [split; reflexivity|]. by vm_compute. Qed.

(** C10.  All returns sanitized copies: for a stored role, the sequence
    holds a pointer to a new report for that role whose figures are those of
    the stored report with -1 in place of each NaN, while findRole still
    returns the stored report with its NaN figures. *)
Theorem All_returns_sanitized_copies w order role l r :
  consistent w -> range_order w order -> stored w role l r ->
  exists ps w',
    All order w = Some (Ok ps, w') /\
    (exists l' c,
       Addr l' ∈ ps /\ l' <> l /\ heap w' !! l' = Some c /\ Role c = Role r /\
       forall f,
         (IsNaN (figure_of f r) = true -> figure_of f c = minus_one) /\
         (IsNaN (figure_of f r) = false -> figure_of f c = figure_of f r)) /\
    findRole role w' = Some (Addr l, w') /\ load (Addr l) w' = Some (r, w').
Proof.
  intros Hc Ho Hs.
  assert (size (store w) <> 0%nat) as Hnz.
  { apply (map_size_ne_0_lookup_2 _ role). destruct Hs as [-> _]. eauto. }
  destruct (All_spec order w Hc Ho Hnz) as (ps & w' & Hrun & Hg & Hout & HF).
  exists ps, w'. split_and!; [done| | |].
  - assert (role ∈ order) as Hin.
    { apply (range_order_elem w order role Ho). destruct Hs as [-> _]. eauto. }
    apply list_elem_of_lookup in Hin as [i Hi].
    destruct (Forall2_lookup_l _ _ _ _ _ HF Hi)
      as (p & Hp & l0 & r0 & l' & Hs0 & -> & Hnew & Hl').
    destruct (stored_functional _ _ _ _ _ _ Hs Hs0) as [<- <-].
    exists l', (sanitized r). split_and!.
    + apply list_elem_of_lookup. eauto.
    + intros ->. destruct Hs as [_ Hl]. congruence.
    + done.
    + done.
    + intros f. rewrite figure_of_sanitized. split; [apply safe_NaN|apply safe_other].
  - by eapply findRole_stored, grows_stored.
  - destruct (grows_stored _ _ _ _ _ Hg Hs) as [_ Hl]. unfold load. by rewrite Hl.
Qed.

Lemma All_returns_sanitized_copies_witness :
  exists ps w',
    All ["worker"] world_fresh = Some (Ok ps, w') /\
    (exists l' c,
       Addr l' ∈ ps /\ l' <> 1%positive /\ heap w' !! l' = Some c /\
       Role c = Role report_fresh /\
       forall f,
         (IsNaN (figure_of f report_fresh) = true -> figure_of f c = minus_one) /\
         (IsNaN (figure_of f report_fresh) = false ->
          figure_of f c = figure_of f report_fresh)) /\
    findRole "worker" w' = Some (Addr 1%positive, w') /\
    load (Addr 1%positive) w' = Some (report_fresh, w').
Proof.
  apply (All_returns_sanitized_copies world_fresh ["worker"] "worker"
           1%positive report_fresh).
  - apply map_Forall_singleton. reflexivity.
  - unfold range_order. vm_compute. reflexivity.
  - split; reflexivity.
Defined.

(** C7.  A received report is inserted in the same iteration of the loop;
    the nil marker makes the loop return; and when the marker arrives, the
    store is the result of inserting every report received before it, in
    order of receipt, so that the role of each of them is bound to the last
    report received for that role. *)
Theorem loop_inserts_until_marker w before after :
  consistent w -> Forall (deliverable w) before ->
  (forall l r, heap w !! l = Some r ->
     loop_body (Recv (Addr l)) w = Some (Running, inserted w l r)) /\
  loop_body (Recv Nil) w = Some (Returned, w) /\
  exists w',
    startIntervalReport (before ++ Recv Nil :: after) w = Some (Returned, w') /\
    store w' = foldl (insert_report (heap w)) (store w) (received before) /\
    forall l r, l ∈ received before -> heap w !! l = Some r ->
      exists l' r', l' ∈ received before /\ heap w' !! l' = Some r' /\
                    Role r' = Role r /\ store w' !! Role r = Some (Addr l').
Proof.
  intros Hc Hd. split_and!.
  - apply loop_body_Recv.
  - reflexivity.
  - destruct (loop_until_marker before w after Hc Hd) as (w' & Hrun & Hh & Hs).
    exists w'. split_and!; [done..|].
    intros l r Hin Hl.
    destruct (foldl_insert_report_lookup (heap w) (store w) _ l r Hin Hl)
      as (l' & r' & H1 & H2 & H3 & H4).
    exists l', r'. split_and!; [done| |done|by rewrite Hs].
    by eapply lookup_weaken.
Qed.

Lemma loop_inserts_until_marker_witness :
  exists w',
    startIntervalReport (schedule_before ++ Recv Nil :: [Recv (Addr 1%positive)])
      world_start = Some (Returned, w') /\
    store w' = <["worker" := Addr 2%positive]> {["manager" := Addr 3%positive]}.
Proof.
  destruct (loop_inserts_until_marker world_start schedule_before
              [Recv (Addr 1%positive)]) as (_ & _ & w' & Hrun & Hs & _).
  - apply map_Forall_empty.
  - repeat constructor; by eexists.
  - exists w'. split; [exact Hrun|]. rewrite Hs. by vm_compute.
Defined.

(** C8.  On a tick: with an empty store nothing is written and the state
    is unchanged; otherwise ToJSON is called and, when it succeeds, its
    document is written to standard output, and when it fails, the error is
    logged and nothing is written.  In every case the loop goes on and the
    store and the stored reports are unchanged. *)
Theorem tick_flushes_or_skips w order :
  consistent w ->
  (size (store w) = 0%nat -> loop_body (Tick order) w = Some (Running, w)) /\
  (size (store w) <> 0%nat ->
     exists res w1 w',
       ToJSON order w = Some (res, w1) /\
       loop_body (Tick order) w = Some (Running, w') /\
       store w' = store w /\
       (forall role l r, stored w role l r -> stored w' role l r) /\
       match res with
       | Ok data => stdout w' = stdout w ++ [Document data] /\ logged w' = logged w
       | Err err => stdout w' = stdout w /\ logged w' = logged w ++ [err]
       end).
Proof.
  intros Hc. split; [apply loop_body_Tick_empty|]. intros Hnz.
  destruct (ToJSON_total order w Hc) as (res & w1 & Hrun & Hg & Ho).
  eexists res, w1, _. split; [done|]. split; [by apply loop_body_Tick|].
  pose proof Hg as (Hh & Hs & Hl).
  destruct res as [data|err]; simpl; (split_and!; [done| |by rewrite ?Ho|by rewrite ?Hl]);
    intros role l r Hst; apply (grows_stored _ _ _ _ _ Hg) in Hst as [H1 H2];
    by split.
Qed.

Lemma tick_flushes_or_skips_witness :
  loop_body (Tick []) world_empty = Some (Running, world_empty) /\
  (exists data w', loop_body (Tick ["worker"]) world_fresh = Some (Running, w') /\
                   stdout w' = [Document data] /\ logged w' = [] /\
                   store w' = store world_fresh) /\
  (exists w', loop_body (Tick ["worker"]) world_inf = Some (Running, w') /\
              stdout w' = [] /\ logged w' = [UnsupportedValueError pInf] /\
              stored w' "worker" 1%positive report_inf).
Proof.
  split_and!.
  - apply (tick_flushes_or_skips world_empty []); [apply map_Forall_empty|reflexivity].
  - destruct (tick_flushes_or_skips world_fresh ["worker"]) as [_ H].
    { apply map_Forall_singleton. reflexivity. }
    destruct H as (res & w1 & w' & Hrun & Hstep & Hs & _ & Hres); [by vm_compute|].
    vm_compute in Hrun. injection Hrun as <- _.
    eexists _, w'. split_and!; [exact Hstep|apply Hres|apply Hres|exact Hs].
  - destruct (tick_flushes_or_skips world_inf ["worker"]) as [_ H].
    { apply map_Forall_singleton. reflexivity. }
    destruct H as (res & w1 & w' & Hrun & Hstep & Hs & Hkeep & Hres); [by vm_compute|].
    vm_compute in Hrun. injection Hrun as <- _.
    exists w'. split_and!; [exact Hstep|apply Hres|apply Hres|].
    apply Hkeep. split; reflexivity.
Defined.

(** C6 (the code departs from it).  For a report first seen at second 1000
    and last seen at second 2000, the start-time line of [String] carries
    2000, the last-seen timestamp, where the claim has the first-seen
    timestamp, 1000.  The other three lines are as claimed. *)
Theorem String_start_seconds_is_last_seen :
  Unix (InitTimestamp report_later) = 1000 /\
  Unix (Timestamp report_later) = 2000 /\
  IntervalReport_String report_later =
  ("bro_pid{role=" ++ dquote ++ "worker" ++ dquote ++ "} 4242" ++ nl ++
   "bro_process_start_seconds{role=" ++ dquote ++ "worker" ++ dquote ++ "} 2000" ++ nl ++
   "bro_process_age_seconds{role=" ++ dquote ++ "worker" ++ dquote ++ "} 1000" ++ nl ++
   "bro_virtual_memory_bytes{role=" ++ dquote ++ "worker" ++ dquote ++ "} 8192" ++ nl)%string.
Proof. split_and!; reflexivity. Qed.




(** ** Further properties of the code *)

(** X1.  Insert replaces the entry of the report's role and nothing else:
    the entries of all other roles, the heap, the output and the log are
    unchanged, and the number of entries grows by one exactly when the role
    had no entry. *)
Theorem Insert_replaces_one_entry w l r :
  heap w !! l = Some r ->
  exists w',
    Insert (Addr l) w = Some (tt, w') /\
    store w' !! Role r = Some (Addr l) /\
    (forall role, role <> Role r -> store w' !! role = store w !! role) /\
    heap w' = heap w /\ stdout w' = stdout w /\ logged w' = logged w /\
    size (store w') = match store w !! Role r with
                      | Some _ => size (store w)
                      | None => S (size (store w))
                      end.
Proof.
  intros H. exists (inserted w l r). split_and!; try done.
  - by apply Insert_allocated.
  - simpl. apply lookup_insert_eq.
  - intros role Hne. simpl. by rewrite lookup_insert_ne.
  - simpl. destruct (store w !! Role r) as [p|] eqn:E.
    + by eapply map_size_insert_Some.
    + by apply map_size_insert_None.
Qed.

Lemma Insert_replaces_one_entry_witness :
  exists w',
    Insert (Addr 2%positive) (inserted world_start 1%positive report_fresh) = Some (tt, w') /\
    store w' !! "worker" = Some (Addr 2%positive) /\
    size (store w') = 1%nat.
Proof.
  destruct (Insert_replaces_one_entry (inserted world_start 1%positive report_fresh)
              2%positive report_later) as (w' & H1 & H2 & _ & _ & _ & _ & H3).
  { reflexivity. }
  exists w'. split_and!; [exact H1|exact H2|]. rewrite H3. by vm_compute.
Defined.

(** X2.  On a consistent state Empty, Len and findRole agree: Empty
    answers true exactly when Len is 0, and exactly when findRole returns nil
    for every role; none of the three changes the state. *)
Theorem Empty_Len_findRole_agree w :
  consistent w ->
  exists b n,
    Empty w = Some (b, w) /\ Len w = Some (n, w) /\ 0 <= n /\
    (b = true <-> n = 0) /\
    (b = true <-> forall role, findRole role w = Some (Nil, w)).
Proof.
  intros Hc. exists (Z.of_nat (size (store w)) =? 0), (Z.of_nat (size (store w))).
  split_and!; [done|done|lia|apply Z.eqb_eq|].
  rewrite Z.eqb_eq. split.
  - intros Hz role. assert (store w = ∅) as E by (apply map_size_empty_iff; lia).
    unfold findRole. by rewrite E, lookup_empty.
  - intros Hnil. destruct (decide (size (store w) = 0%nat)) as [|Hnz]; [lia|exfalso].
    apply map_size_ne_0_lookup in Hnz as (role & p & Hp).
    destruct (consistent_lookup _ _ _ Hc Hp) as (l & r & -> & _).
    specialize (Hnil role). unfold findRole in Hnil. rewrite Hp in Hnil. congruence.
Qed.

Lemma Empty_Len_findRole_agree_witness :
  exists b n,
    Empty world_fresh = Some (b, world_fresh) /\ Len world_fresh = Some (n, world_fresh) /\
    0 <= n /\ (b = true <-> n = 0) /\
    (b = true <-> forall role, findRole role world_fresh = Some (Nil, world_fresh)).
Proof.
  apply (Empty_Len_findRole_agree world_fresh).
  apply map_Forall_singleton. reflexivity.
Defined.

Lemma receivable_grows w w' e : grows w w' -> receivable w e -> receivable w' e.
Proof. intros Hg. destruct e as [p| |]; try done. by apply allocated_grows. Qed.

(** One iteration on a receivable event: it does not panic, it keeps the
    store consistent, and it writes at most one document or logs at most one
    error, and only on a tick. *)
Lemma loop_body_safe w e :
  consistent w -> receivable w e ->
  exists st w' docs errs,
    loop_body e w = Some (st, w') /\ consistent w' /\
    heap w ⊆ heap w' /\
    stdout w' = stdout w ++ (Document <$> docs) /\
    logged w' = logged w ++ errs /\
    (length docs + length errs <= ticks [e])%nat.
Proof.
  intros Hc He. destruct e as [[|l]|order|].
  - exists Returned, w, [], []. rewrite !app_nil_r. by split_and!.
  - destruct He as [r Hr]. exists Running, (inserted w l r), [], [].
    rewrite !app_nil_r. split_and!; try done.
    + by apply loop_body_Recv.
    + by apply consistent_inserted.
  - destruct (decide (size (store w) = 0%nat)) as [Hz|Hnz].
    + exists Running, w, [], []. rewrite !app_nil_r.
      split_and!; try done; [by apply loop_body_Tick_empty|simpl; lia].
    + destruct (ToJSON_total order w Hc) as (res & w1 & Hrun & Hg & Ho).
      pose proof (grows_consistent _ _ Hg Hc) as Hc1.
      pose proof Hg as (Hh & Hs & Hl).
      destruct res as [data|err].
      * exists Running, (printed w1 (Document data)), [data], [].
        rewrite app_nil_r. split_and!; try done.
        -- by apply (loop_body_Tick _ _ (Ok data) w1).
        -- simpl. by rewrite Ho.
      * exists Running, (logged_failure w1 err), [], [err].
        rewrite app_nil_r. split_and!; try done.
        -- by apply (loop_body_Tick _ _ (Err err) w1).
        -- simpl. by rewrite Hl.
  - exists Running, w, [], []. rewrite !app_nil_r. by split_and!.
Qed.

Lemma ticks_cons e sched : ticks (e :: sched) = (ticks [e] + ticks sched)%nat.
Proof. by destruct e. Qed.

(** X3.  The loop never panics: over any schedule whose received pointers
    are nil or allocated, started in a consistent state, it yields a status;
    the store stays consistent (no nil pointer in it, every key the role of
    its report); and all it adds to standard output is JSON documents, at
    most one document or one logged error per tick. *)
Theorem loop_never_panics w sched :
  consistent w -> Forall (receivable w) sched ->
  exists st w' docs errs,
    startIntervalReport sched w = Some (st, w') /\ consistent w' /\
    heap w ⊆ heap w' /\
    stdout w' = stdout w ++ (Document <$> docs) /\
    logged w' = logged w ++ errs /\
    (length docs + length errs <= ticks sched)%nat.
Proof.
  revert w. induction sched as [|e sched IH]; intros w Hc Hs.
  - exists Running, w, [], []. rewrite !app_nil_r. by split_and!.
  - apply Forall_cons in Hs as [He Hs].
    destruct (loop_body_safe w e Hc He)
      as (st & w1 & docs1 & errs1 & Hstep & Hc1 & Hh1 & Ho1 & Hl1 & Hn1).
    destruct st.
    + destruct (IH w1 Hc1) as (st & w' & docs & errs & Hrun & Hc' & Hh & Ho & Hl & Hn).
      { eapply Forall_impl; [done|]. intros e' He'.
        destruct e' as [[|l]| |]; try done. destruct He' as [r Hr].
        exists r. by eapply lookup_weaken. }
      exists st, w', (docs1 ++ docs), (errs1 ++ errs). split_and!.
      * simpl. unfold bind. by rewrite Hstep.
      * done.
      * by etrans.
      * by rewrite Ho, Ho1, fmap_app, app_assoc.
      * by rewrite Hl, Hl1, app_assoc.
      * rewrite ticks_cons, !length_app. lia.
    + exists Returned, w1, docs1, errs1. split_and!; try done.
      * simpl. unfold bind. by rewrite Hstep.
      * rewrite ticks_cons. lia.
Qed.

Lemma loop_never_panics_witness :
  exists st w' docs errs,
    startIntervalReport
      (schedule_before ++ [Recv Nil; Recv (Addr 1%positive)]) world_start
      = Some (st, w') /\ consistent w' /\
    heap world_start ⊆ heap w' /\
    stdout w' = stdout world_start ++ (Document <$> docs) /\
    logged w' = logged world_start ++ errs /\
    (length docs + length errs <= 2)%nat.
Proof.
  apply (loop_never_panics world_start
           (schedule_before ++ [Recv Nil; Recv (Addr 1%positive)])).
  - apply map_Forall_empty.
  - repeat constructor; by eexists.
Defined.

Lemma sanitized_without_NaN r :
  (forall f, IsNaN (figure_of f r) = false) -> sanitized r = r.
Proof.
  intros H. unfold sanitized.
  pose proof (safe_other _ (H FWindowRate)) as H1.
  pose proof (safe_other _ (H FStandardDev)) as H2.
  pose proof (safe_other _ (H FLifetimeRate)) as H3.
  pose proof (safe_other _ (H FCurrentRate)) as H4.
  cbn [figure_of] in *. rewrite H1, H2, H3, H4. by destruct r.
Qed.

(** X4.  For a stored role safeIntervalReport returns a pointer to a newly
    allocated report, never the stored pointer; the new report has the
    stored report's pid, role, timestamps, age, restart count, memory
    figures and histogram, and no NaN figure; when the stored report has no
    NaN figure the copy equals it.  Nothing else in the state changes. *)
Theorem safeIntervalReport_copies w role l r :
  stored w role l r ->
  exists l' c w',
    safeIntervalReport role w = Some (Addr l', w') /\
    l' <> l /\ heap w !! l' = None /\
    heap w' = <[l' := c]> (heap w) /\ store w' = store w /\
    stdout w' = stdout w /\ logged w' = logged w /\
    PID c = PID r /\ Role c = Role r /\
    InitTimestamp c = InitTimestamp r /\ Timestamp c = Timestamp r /\
    Age c = Age r /\ TimesRestated c = TimesRestated r /\
    VirtMemoryBytes c = VirtMemoryBytes r /\ RSSBytes c = RSSBytes r /\
    RateHistogram c = RateHistogram r /\
    (forall f, IsNaN (figure_of f c) = false) /\
    ((forall f, IsNaN (figure_of f r) = false) -> c = r).
Proof.
  intros Hs. exists (fresh (dom (heap w))), (sanitized r), (with_copy w r).
  split_and!; try done.
  - by eapply safeIntervalReport_stored.
  - intros E. destruct Hs as [_ Hl]. rewrite <- E, fresh_cell in Hl. done.
  - apply fresh_cell.
  - intros f. rewrite figure_of_sanitized. apply safe_not_NaN.
  - apply sanitized_without_NaN.
Qed.

Lemma safeIntervalReport_copies_witness :
  exists l' c w',
    safeIntervalReport "worker" world_inf = Some (Addr l', w') /\
    l' <> 1%positive /\ heap w' !! 1%positive = Some report_inf /\
    CurrentRate c = pInf /\ WindowRate c = minus_one.
Proof.
  destruct (safeIntervalReport_copies world_inf "worker" 1%positive report_inf)
    as (l' & c & w' & H1 & H2 & H3 & H4 & _).
  { split; reflexivity. }
  exists l', (sanitized report_inf), w'. split_and!; [exact H1|exact H2| |done|done].
  rewrite H4. rewrite lookup_insert_ne by done. reflexivity.
Defined.

Lemma range_order_empty w order :
  range_order w order -> size (store w) = 0%nat -> order = [].
Proof.
  intros Ho Hz. apply range_order_length in Ho. rewrite Hz in Ho.
  by apply nil_length_inv.
Qed.

(** X5.  On a store without entries ToJSON succeeds with the empty array
    and changes nothing, where All on the same store fails: the two bulk
    reads treat the empty store differently. *)
Theorem ToJSON_empty_store w order :
  range_order w order -> size (store w) = 0%nat ->
  ToJSON order w = Some (Ok (JArray []), w) /\
  All order w = Some (Err errZeroSummaries, w).
Proof.
  intros Ho Hz. rewrite (range_order_empty _ _ Ho Hz). split; [done|].
  by apply All_empty.
Qed.

Lemma ToJSON_empty_store_witness :
  ToJSON [] world_start = Some (Ok (JArray []), world_start) /\
  All [] world_start = Some (Err errZeroSummaries, world_start).
Proof.
  apply (ToJSON_empty_store world_start []).
  - unfold range_order. vm_compute. reflexivity.
  - reflexivity.
Defined.

Lemma RoleToJSON_result w role l r :
  stored w role l r -> fst <$> RoleToJSON role w = Some (marshalReport (sanitized r)).
Proof. intros H. by rewrite (RoleToJSON_stored _ _ _ _ H). Qed.

Lemma collect_Ok w order rs :
  Forall2 (fun role r => exists l, stored w role l r) order rs -> forall js,
  marshalReports (sanitized <$> rs) = Ok js ->
  Forall2 (fun role j => fst <$> RoleToJSON role w = Some (Ok j)) order js.
Proof.
  induction 1 as [|role r order rs [l Hs] _ IH]; intros js;
    rewrite ?fmap_cons; cbn [marshalReports].
  - intros [= <-]. constructor.
  - unfold rbind. destruct (marshalReport (sanitized r)) as [j|] eqn:E; [|done].
    destruct (marshalReports (sanitized <$> rs)) as [js'|]; [|done].
    intros [= <-]. constructor; [|by apply IH].
    by rewrite (RoleToJSON_result _ _ _ _ Hs), E.
Qed.

Lemma collect_Err w order rs :
  Forall2 (fun role r => exists l, stored w role l r) order rs -> forall e,
  marshalReports (sanitized <$> rs) = Err e ->
  exists role, role ∈ order /\ fst <$> RoleToJSON role w = Some (Err e).
Proof.
  induction 1 as [|role r order rs [l Hs] _ IH]; intros e;
    rewrite ?fmap_cons; cbn [marshalReports]; [done|].
  unfold rbind. destruct (marshalReport (sanitized r)) as [j|e1] eqn:E.
  - destruct (marshalReports (sanitized <$> rs)) as [js'|e2]; [done|].
    intros [= <-]. destruct (IH e2 eq_refl) as (role' & Hin & Hr).
    exists role'. split; [by right|done].
  - intros [= <-]. exists role. split; [by left|].
    by rewrite (RoleToJSON_result _ _ _ _ Hs), E.
Qed.

(** X6.  ToJSON is the array of the documents of RoleToJSON: when it
    succeeds, its array has one element per stored role, in the order of the
    range, and each element is the document that RoleToJSON returns for that
    role; when it fails, its error is the error that RoleToJSON returns for
    one of the stored roles.  So one report that cannot be encoded makes the
    whole array fail. *)
Theorem ToJSON_collects_RoleToJSON w order :
  consistent w -> range_order w order ->
  exists res w',
    ToJSON order w = Some (res, w') /\
    match res with
    | Ok doc => exists js, doc = JArray js /\ length js = size (store w) /\
                  Forall2 (fun role j => fst <$> RoleToJSON role w = Some (Ok j)) order js
    | Err e => exists role, role ∈ order /\ fst <$> RoleToJSON role w = Some (Err e)
    end.
Proof.
  intros Hc Ho.
  destruct (ToJSON_spec order w Hc (range_order_all_stored _ _ Ho))
    as (rs & w' & Hrun & _ & _ & HF).
  eexists _, w'. split; [exact Hrun|].
  destruct (marshalReports (sanitized <$> rs)) as [js|e] eqn:E; simpl.
  - pose proof (collect_Ok _ _ _ HF js E) as HF'. exists js. split_and!; [done| |done].
    rewrite <- (Forall2_length _ _ _ HF'). by apply range_order_length.
  - by apply (collect_Err _ _ _ HF).
Qed.

Lemma ToJSON_collects_RoleToJSON_witness :
  (exists res w',
    ToJSON ["worker"] world_fresh = Some (res, w') /\
    match res with
    | Ok doc => exists js, doc = JArray js /\ length js = size (store world_fresh) /\
                  Forall2 (fun role j => fst <$> RoleToJSON role world_fresh = Some (Ok j))
                          ["worker"] js
    | Err e => exists role, role ∈ ["worker"] /\
                 fst <$> RoleToJSON role world_fresh = Some (Err e)
    end) /\
  (exists res w',
    ToJSON ["worker"] world_inf = Some (res, w') /\
    match res with
    | Ok doc => exists js, doc = JArray js /\ length js = size (store world_inf) /\
                  Forall2 (fun role j => fst <$> RoleToJSON role world_inf = Some (Ok j))
                          ["worker"] js
    | Err e => exists role, role ∈ ["worker"] /\
                 fst <$> RoleToJSON role world_inf = Some (Err e)
    end).
Proof.
  split.
  - apply (ToJSON_collects_RoleToJSON world_fresh ["worker"]).
    + apply map_Forall_singleton. reflexivity.
    + unfold range_order. vm_compute. reflexivity.
  - apply (ToJSON_collects_RoleToJSON world_inf ["worker"]).
    + apply map_Forall_singleton. reflexivity.
    + unfold range_order. vm_compute. reflexivity.
Defined.

(** X7.  All writes to standard output: one line with the role for every
    stored role, in the order of its range, after what was there; on a
    store without entries it writes nothing.  The store and the log are
    unchanged. *)
Theorem All_prints_roles w order :
  consistent w -> range_order w order ->
  exists res w',
    All order w = Some (res, w') /\
    stdout w' = stdout w ++ (role_line <$> order) /\
    (size (store w) = 0%nat -> stdout w' = stdout w) /\
    store w' = store w /\ logged w' = logged w.
Proof.
  intros Hc Ho. destruct (decide (size (store w) = 0%nat)) as [Hz|Hnz].
  - exists (Err errZeroSummaries), w. rewrite (range_order_empty _ _ Ho Hz).
    rewrite app_nil_r. split_and!; try done.
    rewrite <- (range_order_empty _ _ Ho Hz). by apply All_empty.
  - destruct (All_spec order w Hc Ho Hnz) as (ps & w' & Hrun & (_ & Hs & Hl) & Hout & _).
    exists (Ok ps), w'. by split_and!.
Qed.

Lemma All_prints_roles_witness :
  exists res w',
    All ["worker"] world_fresh = Some (res, w') /\
    stdout w' = [role_line "worker"] /\ store w' = store world_fresh.
Proof.
  destruct (All_prints_roles world_fresh ["worker"])
    as (res & w' & H1 & H2 & _ & H3 & _).
  - apply map_Forall_singleton. reflexivity.
  - unfold range_order. vm_compute. reflexivity.
  - exists res, w'. split_and!; [exact H1|exact H2|exact H3].
Defined.




Lemma marshalTime_Ok t j : marshalTime t = Ok j -> JString <$> MarshalJSON t = Some j.
Proof. unfold marshalTime. destruct (MarshalJSON t); [|done]. by intros [= <-]. Qed.

(** X9.  A document of RoleToJSON carries the stored report under the json
    tags of the struct: pid, role, age, times_restarted,
    virtual_memory_bytes and rss_bytes are the report's fields, first_seen
    is the text of InitTimestamp and last_seen the text of Timestamp. *)
Theorem RoleToJSON_document_members w role l r j w' :
  stored w role l r -> RoleToJSON role w = Some (Ok j, w') ->
  member "pid" j = Some (JNumber (PID r)) /\
  member "role" j = Some (JString (Role r)) /\
  JString <$> MarshalJSON (InitTimestamp r) = member "first_seen" j /\
  JString <$> MarshalJSON (Timestamp r) = member "last_seen" j /\
  member "age" j = Some (JNumber (Age r)) /\
  member "times_restarted" j = Some (JNumber (TimesRestated r)) /\
  member "virtual_memory_bytes" j = Some (JNumber (VirtMemoryBytes r)) /\
  member "rss_bytes" j = Some (JNumber (RSSBytes r)).
Proof.
  intros Hs Hrun. rewrite (RoleToJSON_stored _ _ _ _ Hs) in Hrun.
  injection Hrun as Hj _. revert Hj.
  unfold marshalReport, rbind. cbn [InitTimestamp Timestamp sanitized].
  destruct (marshalTime (InitTimestamp r)) as [j1|] eqn:E1; [|done].
  destruct (marshalTime (Timestamp r)) as [j2|] eqn:E2; [|done].
  destruct (marshalFloat _) as [j3|]; [|done].
  destruct (marshalFloat _) as [j4|]; [|done].
  destruct (marshalFloat _) as [j5|]; [|done].
  destruct (marshalFloat _) as [j6|]; [|done].
  intros [= <-]. apply marshalTime_Ok in E1, E2. by split_and!.
Qed.

Lemma RoleToJSON_document_members_witness :
  exists j w',
    RoleToJSON "worker" world_fresh = Some (Ok j, w') /\
    member "pid" j = Some (JNumber 4242) /\
    member "first_seen" j = Some (JString "1970-01-01T00:16:40Z") /\
    member "last_seen" j = Some (JString "1970-01-01T00:33:20Z").
Proof.
  destruct (RoleToJSON "worker" world_fresh) as [[[j|e] w']|] eqn:E;
    [|by vm_compute in E..].
  destruct (RoleToJSON_document_members world_fresh "worker" 1%positive
              report_fresh j w') as (H1 & _ & H3 & H4 & _).
  - split; reflexivity.
  - exact E.
  - exists j, w'. split_and!; [done|exact H1|by rewrite <- H3|by rewrite <- H4].
Defined.

Lemma iter_xO_pow p q : Z.pos (Pos.iter xO p q) = Z.pos p * 2 ^ Z.pos q.
Proof.
  induction q as [|q IH] using Pos.peano_ind.
  - simpl. lia.
  - rewrite Pos.iter_succ, Pos2Z.inj_xO, IH, Pos2Z.inj_succ, Z.pow_succ_r by lia. lia.
Qed.

(** A positive integer below 2^53 converts to float64 and back without
    change. *)
Lemma toInt_ofZ_pos p : Z.pos p < 2 ^ 53 -> toInt (ofZ (Z.pos p)) = Z.pos p.
Proof.
  intros Hp. pose proof (digits2_pos_bound p Hp) as Hd.
  unfold ofZ, binary_normalize, binary_round.
  set (d := Z.pos (digits2_pos p)) in *.
  assert (fexp prec emax (d + 0) = d - 53) as ->.
  { unfold fexp, emin, prec, emax. lia. }
  assert (exists mz, shl_align p 0 (d - 53) = (mz, d - 53) /\
                     Z.pos (digits2_pos mz) = 53 /\
                     toInt (S754_finite false mz (d - 53)) = Z.pos p)
    as (mz & -> & Hmz & Hint).
  { unfold shl_align. rewrite Z.sub_0_r.
    destruct (d - 53) as [|q|q] eqn:E; [|lia|].
    - exists p. split_and!; [done|fold d; lia|]. simpl. by rewrite Z.shiftl_0_r.
    - exists (Pos.iter xO p q). split_and!; [done| |].
      + rewrite digits2_pos_iter. fold d in |- *. unfold d in *. lia.
      + cbn [toInt cond_Zopp]. rewrite Z.shiftr_div_pow2 by lia.
        rewrite iter_xO_pow. apply Z.div_mul. pose proof (Z.pow_pos_nonneg 2 (Z.pos q)). lia. }
  unfold binary_round_aux, shr_fexp. simpl Zdigits2. rewrite Hmz.
  assert (fexp prec emax (53 + (d - 53)) - (d - 53) = 0) as ->.
  { unfold fexp, emin, prec, emax. unfold d. lia. }
  simpl. rewrite Hmz.
  assert (fexp prec emax (53 + (d - 53)) - (d - 53) = 0) as ->.
  { unfold fexp, emin, prec, emax. unfold d. lia. }
  simpl. destruct (Z.leb_spec (d - 53) (emax - prec)); [exact Hint|].
  unfold emax, prec in *. lia.
Qed.

Lemma add_zero_r x : finite x -> x <> S754_zero true -> add x zero = x.
Proof. destruct x as [[]| | |]; by intros. Qed.

Lemma Seconds_whole k : 0 <= k < 2 ^ 53 -> toInt (Seconds (k * Second)) = k.
Proof.
  intros Hk. unfold Seconds.
  rewrite Z.quot_mul, Z.rem_mul by done.
  change (div (ofZ 0) e9) with zero.
  destruct k as [|p|p]; [done| |lia].
  pose proof (toInt_ofZ_pos p (proj2 Hk)) as Hint.
  destruct (ofZ_pos p (proj2 Hk)) as (m & e & E). rewrite E in *.
  by rewrite add_zero_r.
Qed.

(** X10.  For an age of a whole number [k] of seconds, 0 <= k < 2^53
    (which covers every such time.Duration), the age line of String carries
    exactly [k]: the conversion through float64 in Duration.Seconds loses
    nothing. *)
Theorem String_age_whole_seconds i k :
  Age i = k * Second -> 0 <= k < 2 ^ 53 ->
  toInt (Seconds (Age i)) = k /\
  IntervalReport_String i =
  (metric_line "bro_pid" (Role i) (PID i) ++ nl ++
   metric_line "bro_process_start_seconds" (Role i) (Unix (Timestamp i)) ++ nl ++
   metric_line "bro_process_age_seconds" (Role i) k ++ nl ++
   metric_line "bro_virtual_memory_bytes" (Role i) (VirtMemoryBytes i) ++ nl)%string.
Proof.
  intros HA Hk. assert (toInt (Seconds (Age i)) = k) as E.
  { rewrite HA. by apply Seconds_whole. }
  split; [done|]. by rewrite String_lines, E.
Qed.

Lemma String_age_whole_seconds_witness :
  toInt (Seconds (Age report_manager)) = 1000.
Proof.
  apply (String_age_whole_seconds report_manager 1000).
  - reflexivity.
  - split; [lia|by vm_compute].
Defined.

Lemma newlines_app a b : newlines (a ++ b) = (newlines a + newlines b)%nat.
Proof. induction a as [|c a IH]; [done|]. simpl. rewrite IH. lia. Qed.

Lemma newlines_uint d : newlines (NilEmpty.string_of_uint d) = 0%nat.
Proof. induction d; simpl; done. Qed.

Lemma newlines_fmt_d z : newlines (fmt_d z) = 0%nat.
Proof.
  unfold fmt_d, NilZero.string_of_int, NilZero.string_of_uint.
  destruct (Z.to_int z) as [d|d]; destruct d; simpl; try done;
    apply newlines_uint.
Qed.

Lemma newlines_metric_line name role v :
  newlines (metric_line name role v) = (newlines name + newlines role)%nat.
Proof.
  unfold metric_line. rewrite !newlines_app, newlines_fmt_d. simpl. lia.
Qed.

(** X11.  String writes four newline characters of its own and copies the
    role four times without escaping it: the text has 4 + 4n newlines for a
    role with n newlines, so it is four lines exactly when the role has
    none. *)
Theorem String_newlines i :
  newlines (IntervalReport_String i) = (4 + 4 * newlines (Role i))%nat.
Proof.
  rewrite String_lines, !newlines_app, !newlines_metric_line. simpl. lia.
Qed.

(** X12.  One stored report with an infinite figure blocks the flush of
    every role: on a tick, ToJSON fails, the error is logged, and nothing is
    written to standard output. *)
Theorem tick_blocked_by_infinite_figure w order role l r f :
  consistent w -> range_order w order ->
  stored w role l r -> IsInf (figure_of f r) = true ->
  exists e w',
    loop_body (Tick order) w = Some (Running, w') /\
    stdout w' = stdout w /\ logged w' = logged w ++ [e] /\ store w' = store w.
Proof.
  intros Hc Ho Hs Hf.
  assert (size (store w) <> 0%nat) as Hnz.
  { apply (map_size_ne_0_lookup_2 _ role). destruct Hs as [-> _]. eauto. }
  destruct (ToJSON_spec order w Hc (range_order_all_stored _ _ Ho))
    as (rs & w1 & Hrun & (_ & Hst & Hl) & Hout & HF).
  destruct (range_reports_lookup _ _ _ _ _ _ Ho Hs HF) as (i & _ & Hri).
  destruct (marshal_sanitized_infinite r f Hf) as [e0 He0].
  destruct (marshalReports_Err (sanitized <$> rs) (sanitized r) e0) as [e He]; [|done|].
  { apply list_elem_of_fmap. exists r. split; [done|]. apply list_elem_of_lookup. eauto. }
  rewrite He in Hrun. simpl in Hrun.
  exists e, (logged_failure w1 e). split_and!.
  - by apply (loop_body_Tick _ _ (Err e) w1).
  - done.
  - simpl. by rewrite Hl.
  - done.
Qed.

Lemma tick_blocked_by_infinite_figure_witness :
  exists e w',
    loop_body (Tick ["worker"]) world_inf = Some (Running, w') /\
    stdout w' = stdout world_inf /\ logged w' = logged world_inf ++ [e] /\
    store w' = store world_inf.
Proof.
  apply (tick_blocked_by_infinite_figure world_inf ["worker"] "worker"
           1%positive report_inf FCurrentRate).
  - apply map_Forall_singleton. reflexivity.
  - unfold range_order. vm_compute. reflexivity.
  - split; reflexivity.
  - reflexivity.
Defined.

(** X13.  Insert followed by RoleToJSON of the report's role serializes the
    report just inserted, whatever the store held for that role before: the
    result is the encoding of its sanitized copy, a document whenever the
    report has no infinite figure and its timestamps have a text form. *)
Theorem Insert_then_RoleToJSON w l r :
  heap w !! l = Some r ->
  exists w1 w2,
    Insert (Addr l) w = Some (tt, w1) /\
    RoleToJSON (Role r) w1 = Some (marshalReport (sanitized r), w2) /\
    safely_encoded r (marshalReport (sanitized r)) /\
    (is_Some (MarshalJSON (InitTimestamp r)) ->
     is_Some (MarshalJSON (Timestamp r)) ->
     (forall f, IsInf (figure_of f r) = false) ->
     exists j, marshalReport (sanitized r) = Ok j).
Proof.
  intros H. exists (inserted w l r), (with_copy (inserted w l r) r). split_and!.
  - by apply Insert_allocated.
  - apply (RoleToJSON_stored _ _ l). split; [|done]. simpl. apply lookup_insert_eq.
  - apply marshal_sanitized_encoded.
  - intros [s1 H1] [s2 H2] Hf.
    destruct (marshalReport (sanitized r)) as [j|e] eqn:E; [eauto|].
    apply marshal_sanitized_Err in E as [[f Hinf]|[?|?]]; [|congruence..].
    by rewrite Hf in Hinf.
Qed.

Lemma Insert_then_RoleToJSON_witness :
  exists w1 w2 j,
    Insert (Addr 2%positive) (inserted world_start 1%positive report_fresh)
      = Some (tt, w1) /\
    RoleToJSON "worker" w1 = Some (Ok j, w2).
Proof.
  destruct (Insert_then_RoleToJSON (inserted world_start 1%positive report_fresh)
              2%positive report_later) as (w1 & w2 & H1 & H2 & _ & H4).
  { reflexivity. }
  destruct H4 as [j Hj]; [by eexists|by eexists|by intros []|].
  exists w1, w2, j. split; [exact H1|]. by rewrite <- Hj.
Defined.
